(** * GenericTree: a heap model of the pointer-based multi-way tree

    A shallow embedding of [GenericTree.h].  Nodes live in a heap keyed by
    addresses; a [TreeNode*] is an [option positive] ([None] is [nullptr]).
    Dereferencing an address that is not allocated, or releasing it twice,
    is undefined behaviour in C++ and is the outcome [Fault] here.  The
    loops of the source are driven by a fuel counter: they terminate on
    tree-shaped heaps, which is proved, and run out of fuel on cyclic
    ones. *)

From Stdlib Require Import String Ascii ZArith.
From stdpp Require Import gmap strings list fin_maps pretty.

Local Open Scope string_scope.
Local Open Scope list_scope.
Local Open Scope stdpp_scope.
Local Open Scope nat_scope.

Abbreviation addr := positive (only parsing).

(** [std::endl] as seen by the stream's contents: a line feed. *)
Definition endl : string := String "010"%char "".

(** The messages carried by the [std::runtime_error]s of the source. *)
Definition ERR_ROOT_EXISTS : string :=
  "Tried to createRoot when root already exists".
Definition ERR_CROSS_TREE : string :=
  "Tried to delete a node from a different tree".
Definition ERR_NOT_LISTED : string :=
  "Target node to delete was not listed as a child of its parent".
Definition ERR_QUEUED_NULL : string :=
  "Error: Compression exploration queued a null pointer".
Definition ERR_CLEAR : string :=
  "clear() detected that deleteSubtree() had not reset rootNodePtr".

(** The tree object itself: the debug switch and the root pointer. *)
Record GenericTree : Type := mkTree {
  showDebugMessages : bool;
  rootNodePtr : option addr
}.

Section WithData.

Context {T : Type}.
(** [operator<<] of the element type. *)
Variable show : T → string.

Record TreeNode : Type := mkNode {
  parentPtr : option addr;
  childrenPtrs : list (option addr);
  data : T
}.

(** The process state the methods act on: the free store, what has been
    written to [std::cerr], and (ghost) the sequence of [delete] calls. *)
Record world : Type := mkWorld {
  heap : gmap addr TreeNode;
  cerr : string;
  released : list addr
}.

(** A tree object together with the world it lives in. *)
Record state : Type := mkState {
  self : GenericTree;
  mem : world
}.

Inductive outcome (A : Type) : Type :=
| Ok (x : A)
| Throw (what : string) (s : state)
| Fault
| OutOfFuel.
Global Arguments Ok {A} x.
Global Arguments Throw {A} what s.
Global Arguments Fault {A}.
Global Arguments OutOfFuel {A}.

(** Sequencing: anything but [Ok] ends the call. *)
Global Instance outcome_ret : MRet outcome := λ A x, Ok x.
Global Instance outcome_bind : MBind outcome := λ A B k o,
  match o with
  | Ok x => k x
  | Throw e s => Throw e s
  | Fault => Fault
  | OutOfFuel => OutOfFuel
  end.

(** Dereferencing a node pointer. *)
Definition load (h : gmap addr TreeNode) (a : addr) : outcome TreeNode :=
  match h !! a with
  | Some n => Ok n
  | None => Fault
  end.

Definition set_heap (h : gmap addr TreeNode) (w : world) : world :=
  {| heap := h; cerr := cerr w; released := released w |}.
Definition put_cerr (msg : string) (w : world) : world :=
  {| heap := heap w; cerr := cerr w +:+ msg; released := released w |}.
Definition set_children (cs : list (option addr)) (n : TreeNode) : TreeNode :=
  {| parentPtr := parentPtr n; childrenPtrs := cs; data := data n |}.
Definition set_root (r : option addr) (t : GenericTree) : GenericTree :=
  {| showDebugMessages := showDebugMessages t; rootNodePtr := r |}.

(** [new TreeNode(dataArg)]: the allocator picks the address of the new
    node.  All that the facts below assume of it is that the address it
    picks is not allocated. *)
Variable alloc : gmap addr TreeNode → addr.

(** ** Construction *)

Definition GenericTree_default : GenericTree :=
  {| showDebugMessages := false; rootNodePtr := None |}.

Definition getRootPtr (this : GenericTree) : option addr := rootNodePtr this.

Definition createRoot (rootData : T) (s : state) : outcome (addr * state) :=
  match rootNodePtr (self s) with
  | Some _ =>
      Throw ERR_ROOT_EXISTS
        {| self := self s; mem := put_cerr (ERR_ROOT_EXISTS +:+ endl) (mem s) |}
  | None =>
      let p := alloc (heap (mem s)) in
      let n := {| parentPtr := None; childrenPtrs := []; data := rootData |} in
      Ok (p, {| self := set_root (Some p) (self s);
                mem := set_heap (<[p := n]> (heap (mem s))) (mem s) |})
  end.

(** [GenericTree(const T& rootData)] in a given world. *)
Definition GenericTree_with_root (rootData : T) (w : world) : outcome state :=
  '(_, s) ← createRoot rootData {| self := GenericTree_default; mem := w |};
  Ok s.

(** [TreeNode::addChild]; [this] is the receiver's address. *)
Definition addChild (this : addr) (childData : T) (w : world)
  : outcome (addr * world) :=
  me ← load (heap w) this;
  let newChildPtr := alloc (heap w) in
  let n := {| parentPtr := Some this; childrenPtrs := []; data := childData |} in
  Ok (newChildPtr,
      set_heap (<[this := set_children (childrenPtrs me ++ [Some newChildPtr]) me]>
                  (<[newChildPtr := n]> (heap w))) w).

(** ** Subtree deletion *)

(** The ownership check: follow [parentPtr] to the node that has none. *)
Fixpoint walkBack (fuel : nat) (h : gmap addr TreeNode) (walk : addr)
  : outcome addr :=
  n ← load h walk;
  match parentPtr n with
  | None => Ok walk
  | Some p =>
      match fuel with
      | O => OutOfFuel
      | S fuel' => walkBack fuel' h p
      end
  end.

(** The search through the parent's children: the first entry equal to the
    target becomes [nullptr] and the loop stops; the flag tells whether the
    target was found. *)
Fixpoint detach (target : addr) (cs : list (option addr))
  : list (option addr) * bool :=
  match cs with
  | [] => ([], false)
  | currentChildPtr :: rest =>
      if decide (currentChildPtr = Some target) then (None :: rest, true)
      else let '(rest', found) := detach target rest in
           (currentChildPtr :: rest', found)
  end.

(** What the debug traces and the diagram print for a node pointer. *)
Definition node_line (h : gmap addr TreeNode) (curNode : option addr)
  : outcome string :=
  match curNode with
  | None => Ok ("[null]" +:+ endl)
  | Some a => n ← load h a; Ok (show (data n) +:+ endl)
  end.

(** Pushing every child pointer, first to last, on a stack whose top is the
    head of the list. *)
Definition push_all (cs : list (option addr)) (stack : list (option addr))
  : list (option addr) :=
  foldl (λ st childPtr, childPtr :: st) stack cs.

(** The explore loop.  Both stacks have their top at the head. *)
Fixpoint explore (fuel : nat) (dbg : bool) (h : gmap addr TreeNode)
    (nodesToExplore : list (option addr)) (nodesToDelete : list (option addr))
    (err : string) : outcome (list (option addr) * string) :=
  match nodesToExplore with
  | [] => Ok (nodesToDelete, err)
  | curNode :: rest =>
      match fuel with
      | O => OutOfFuel
      | S fuel' =>
          err' ← (if dbg then line ← node_line h curNode;
                              Ok (err +:+ "Exploring node: " +:+ line)
                  else Ok err);
          match curNode with
          | None => explore fuel' dbg h rest nodesToDelete err'
          | Some a =>
              n ← load h a;
              explore fuel' dbg h (push_all (childrenPtrs n) rest)
                (Some a :: nodesToDelete) err'
          end
      end
  end.

(** [delete curNode]: nothing for a null pointer; a fault for an address
    that is not allocated. *)
Definition delete_node (curNode : option addr) (w : world) : outcome world :=
  match curNode with
  | None => Ok w
  | Some a =>
      _ ← load (heap w) a;
      Ok {| heap := delete a (heap w); cerr := cerr w;
            released := released w ++ [a] |}
  end.

(** The delete loop: pops the delete stack and releases each entry. *)
Fixpoint release (dbg : bool) (nodesToDelete : list (option addr)) (w : world)
  : outcome world :=
  match nodesToDelete with
  | [] => Ok w
  | curNode :: rest =>
      w1 ← (if dbg then line ← node_line (heap w) curNode;
                        Ok (put_cerr ("Deleting node: " +:+ line) w)
            else Ok w);
      w2 ← delete_node curNode w1;
      release dbg rest w2
  end.

(** The detach step: the parent's slot for the target becomes a null
    pointer, or the call throws when the parent does not list the target. *)
Definition detach_from_parent (target : addr) (s : state) : outcome world :=
  let w := mem s in
  tn ← load (heap w) target;
  match parentPtr tn with
  | None => Ok w
  | Some p =>
      pn ← load (heap w) p;
      let '(cs, targetWasFound) := detach target (childrenPtrs pn) in
      if targetWasFound
      then Ok (set_heap (<[p := set_children cs pn]> (heap w)) w)
      else Throw ERR_NOT_LISTED
             {| self := self s; mem := put_cerr (ERR_NOT_LISTED +:+ endl) w |}
  end.

Definition deleteSubtree (fuel : nat) (targetRoot : option addr) (s : state)
  : outcome state :=
  match targetRoot with
  | None => Ok s
  | Some target =>
      let this := self s in
      walk ← walkBack fuel (heap (mem s)) target;
      if decide (Some walk ≠ rootNodePtr this) then Throw ERR_CROSS_TREE s
      else
        let targetingWholeTreeRoot :=
          bool_decide (rootNodePtr this = Some target) in
        w1 ← detach_from_parent target s;
        '(nodesToDelete, err) ←
          explore fuel (showDebugMessages this) (heap w1) [Some target] []
            (cerr w1);
        w2 ← release (showDebugMessages this) nodesToDelete
               {| heap := heap w1; cerr := err; released := released w1 |};
        Ok {| self := if targetingWholeTreeRoot then set_root None this
                      else this;
              mem := w2 |}
  end.

(** [clear()], which is also the body of the destructor. *)
Definition clear (fuel : nat) (s : state) : outcome state :=
  s' ← deleteSubtree fuel (rootNodePtr (self s)) s;
  match rootNodePtr (self s') with
  | Some _ => Throw ERR_CLEAR s'
  | None => Ok s'
  end.

Definition destroy (fuel : nat) (s : state) : outcome state := clear fuel s.

(** ** Compaction *)

(** The inner loop of [compress]: the non-null children go, in order, to the
    back of the new vector and to the back of the queue. *)
Definition sweep (cs : list (option addr)) (queue : list (option addr))
  : list (option addr) * list (option addr) :=
  foldl (λ '(compressedChildrenPtrs, q) childPtr,
           match childPtr with
           | Some _ => (compressedChildrenPtrs ++ [childPtr], q ++ [childPtr])
           | None => (compressedChildrenPtrs, q)
           end) ([], queue) cs.

(** The queue has its front at the head of the list. *)
Fixpoint compress_loop (fuel : nat) (this : GenericTree) (w : world)
    (nodesToExplore : list (option addr)) : outcome world :=
  match nodesToExplore with
  | [] => Ok w
  | frontNode :: rest =>
      match fuel with
      | O => OutOfFuel
      | S fuel' =>
          match frontNode with
          | None => Throw ERR_QUEUED_NULL {| self := this; mem := w |}
          | Some a =>
              n ← load (heap w) a;
              let '(compressedChildrenPtrs, queue) :=
                sweep (childrenPtrs n) rest in
              compress_loop fuel' this
                (set_heap (<[a := set_children compressedChildrenPtrs n]> (heap w)) w)
                queue
          end
      end
  end.

Definition compress (fuel : nat) (s : state) : outcome state :=
  match rootNodePtr (self s) with
  | None => Ok s
  | Some r =>
      w ← compress_loop fuel (self s) (mem s) [Some r];
      Ok {| self := self s; mem := w |}
  end.

(** ** Rendering *)

Definition LAST_ROW : nat := 2.

(** What one margin column contributes to one of the two rows. *)
Definition stem_cell (row : nat) (showStem isLastCol : bool) : string :=
  let stemSymbol := if showStem then "|" else " " in
  if isLastCol then
    if decide (LAST_ROW = row) then stemSymbol +:+ "_ "
    else if showStem then stemSymbol +:+ endl
    else endl
  else stemSymbol +:+ "  ".

Fixpoint margin_row (row : nat) (curMargin : list bool) : string :=
  match curMargin with
  | [] => ""
  | showStem :: rest =>
      stem_cell row showStem (bool_decide (rest = [])) +:+ margin_row row rest
  end.

(** The four stacks of [Print], each with its top at the head. *)
Record print_stacks : Type := mkStacks {
  nodesToExplore : list (option addr);
  depthStack : list Z;
  curMarginStack : list (list bool);
  trailingMarginStack : list (list bool)
}.

(** One round of the loop over the children in reverse: the first child
    met, the rightmost, leaves a blank trailing margin. *)
Definition push_child (curDepth : Z) (trailingMargin : list bool)
    (acc : bool * print_stacks) (childPtr : option addr) : bool * print_stacks :=
  let '(isRightmost, st) := acc in
  (false,
   {| nodesToExplore := childPtr :: nodesToExplore st;
      depthStack := (curDepth + 1)%Z :: depthStack st;
      curMarginStack := (trailingMargin ++ [true]) :: curMarginStack st;
      trailingMarginStack :=
        (trailingMargin ++ [if isRightmost then false else true])
          :: trailingMarginStack st |}).

Definition push_children (cs : list (option addr)) (curDepth : Z)
    (trailingMargin : list bool) (st : print_stacks) : print_stacks :=
  snd (foldl (push_child curDepth trailingMargin) (true, st) (reverse cs)).

(** The loop of [Print]; [os] and [err] are what has been written to the
    output stream and to [std::cerr].  The depth, an [int] in the source,
    is an integer here: it is bounded by the number of nodes. *)
Fixpoint print_loop (fuel : nat) (dbg : bool) (h : gmap addr TreeNode)
    (st : print_stacks) (os err : string) : outcome (string * string) :=
  match nodesToExplore st with
  | [] => Ok (os, err)
  | curNode :: ne =>
      match fuel with
      | O => OutOfFuel
      | S fuel' =>
          match depthStack st, curMarginStack st, trailingMarginStack st with
          | curDepth :: ds, curMargin :: cms, trailingMargin :: tms =>
              line ← node_line h curNode;
              let os' :=
                if dbg then os +:+ "Depth: " +:+ pretty curDepth
                else os +:+ margin_row 1 curMargin +:+ margin_row 2 curMargin
                        +:+ line in
              let err' := if dbg then err +:+ " Data: " +:+ line else err in
              let popped :=
                {| nodesToExplore := ne; depthStack := ds;
                   curMarginStack := cms; trailingMarginStack := tms |} in
              match curNode with
              | None => print_loop fuel' dbg h popped os' err'
              | Some a =>
                  n ← load h a;
                  print_loop fuel' dbg h
                    (push_children (childrenPtrs n) curDepth trailingMargin popped)
                    os' err'
              end
          | _, _, _ => Fault
          end
      end
  end.

Definition Print (fuel : nat) (this : GenericTree) (h : gmap addr TreeNode)
    (os err : string) : outcome (string * string) :=
  match rootNodePtr this with
  | None => Ok (os +:+ "[empty tree]" +:+ endl, err)
  | Some r =>
      print_loop fuel (showDebugMessages this) h
        {| nodesToExplore := [Some r]; depthStack := [0%Z];
           curMarginStack := [[]]; trailingMarginStack := [[]] |}
        os err
  end.

End WithData.

Arguments TreeNode T : clear implicits.
Arguments world T : clear implicits.
Arguments state T : clear implicits.
Arguments outcome T A : clear implicits.

(** One allocator: the first free address. *)
Definition first_free {T} (h : gmap addr (TreeNode T)) : addr := fresh (dom h).

(** * Tree-shaped heaps

    The invariants of the container (one root, every node listed once by
    its parent, no cycles) are stated through the abstract tree a heap
    region stands for: a node with its address, its value and its slots,
    each slot a subtree or a tombstone. *)

Section Shape.

Context {T : Type}.

#[local] Unset Elimination Schemes.
Inductive rtree : Type :=
| RNode (a : addr) (v : T) (cs : list (option rtree)).
#[local] Set Elimination Schemes.

Definition raddr (t : rtree) : addr := match t with RNode a _ _ => a end.
Definition rval (t : rtree) : T := match t with RNode _ v _ => v end.
Definition rkids (t : rtree) : list (option rtree) :=
  match t with RNode _ _ cs => cs end.

(** The pointer stored in a slot. *)
Definition slot_ptr (oc : option rtree) : option addr := raddr <$> oc.

(** The heap cells a tree stands for, given the parent of its root. *)
Fixpoint cells (p : option addr) (t : rtree) : list (addr * TreeNode T) :=
  match t with
  | RNode a v cs =>
      (a, {| parentPtr := p; childrenPtrs := slot_ptr <$> cs; data := v |})
        :: (cs ≫= from_option (cells (Some a)) [])
  end.

(** The addresses of the nodes of a tree, root first. *)
Fixpoint addrs (t : rtree) : list addr :=
  match t with
  | RNode a _ cs => a :: (cs ≫= from_option addrs [])
  end.

(** The number of stack entries a traversal of the tree goes through: one
    per node and one per tombstone. *)
Fixpoint slots (t : rtree) : nat :=
  match t with
  | RNode _ _ cs => S (sum_list_with (from_option slots 1) cs)
  end.

Definition addrsF (f : list (option rtree)) : list addr :=
  f ≫= from_option addrs [].
Definition slotsF (f : list (option rtree)) : nat :=
  sum_list_with (from_option slots 1) f.

(** The heap holds the cells of the tree. *)
Definition repr (h : gmap addr (TreeNode T)) (p : option addr) (t : rtree)
  : Prop :=
  ∀ a n, (a, n) ∈ cells p t → h !! a = Some n.

(** A forest on a stack or a queue: each tree is held by the heap, under
    some parent. *)
Definition reprF (h : gmap addr (TreeNode T)) (f : list (option rtree))
  : Prop :=
  ∀ c, Some c ∈ f → ∃ p, repr h p c.

(** The state owns a tree of the given shape: [None] for the empty tree. *)
Definition owns (s : state T) (ot : option rtree) : Prop :=
  match ot with
  | None => rootNodePtr (self s) = None
  | Some t =>
      rootNodePtr (self s) = Some (raddr t)
      ∧ repr (heap (mem s)) None t
      ∧ NoDup (addrs t)
  end.

(** Reachability along child pointers, on the heap itself. *)
Inductive reach (h : gmap addr (TreeNode T)) : addr → addr → Prop :=
| reach_here a : reach h a a
| reach_child a n c b :
    h !! a = Some n → Some c ∈ childrenPtrs n → reach h c b → reach h a b.

(** A deleted child's slot holds a null pointer; the other entries stay. *)
Definition tombstone (target : addr) (n : TreeNode T) : TreeNode T :=
  set_children
    ((λ c, if decide (c = Some target) then None else c) <$> childrenPtrs n) n.

(** A node whose null entries have been swept. *)
Definition squash (n : TreeNode T) : TreeNode T :=
  set_children (filter is_Some (childrenPtrs n)) n.

(** [sub t s]: [s] is a subtree of [t]. *)
Inductive sub (t : rtree) : rtree → Prop :=
| sub_refl : sub t t
| sub_kid u s : sub t u → Some s ∈ rkids u → sub t s.

(** The tree left by deleting the subtree at [target]: a tombstone in its
    slot. *)
Fixpoint prune (target : addr) (t : rtree) : rtree :=
  match t with
  | RNode a v cs =>
      RNode a v
        ((λ oc, match oc with
                | Some c => if decide (raddr c = target) then None
                            else Some (prune target c)
                | None => None
                end) <$> cs)
  end.

(** The tree with a new rightmost leaf under the node at [n]. *)
Fixpoint graft (n c : addr) (x : T) (t : rtree) : rtree :=
  match t with
  | RNode a v cs =>
      let cs' := fmap (M := option) (graft n c x) <$> cs in
      RNode a v (if decide (a = n) then cs' ++ [Some (RNode c x [])] else cs')
  end.

(** The tree with its tombstones swept. *)
Fixpoint compressT (t : rtree) : rtree :=
  match t with
  | RNode a v cs =>
      RNode a v
        (cs ≫= λ oc, match oc with
                     | Some c => [Some (compressT c)]
                     | None => []
                     end)
  end.

(** What [prune] and [compressT] do to one slot, and the cell of a new
    leaf. *)
Definition prune_slot (n : addr) (oc : option rtree) : option rtree :=
  match oc with
  | Some c => if decide (raddr c = n) then None else Some (prune n c)
  | None => None
  end.

Definition compress_slot (oc : option rtree) : list (option rtree) :=
  match oc with
  | Some c => [Some (compressT c)]
  | None => []
  end.

Definition leaf (p : option addr) (x : T) : TreeNode T :=
  {| parentPtr := p; childrenPtrs := []; data := x |}.

(** The state holds one tree and nothing else. *)
Definition exact (s : state T) (ot : option rtree) : Prop :=
  owns s ot
  ∧ ∀ a, is_Some (heap (mem s) !! a) ↔ a ∈ from_option addrs [] ot.

Variable show : T → string.
Variable alloc : gmap addr (TreeNode T) → addr.

(** ** The public interface as a transition system

    A program that holds one tree starts with an empty free store and
    changes it through calls that return, normally or with an exception
    that the caller catches. *)
Inductive api_step : state T → state T → Prop :=
| call_createRoot v s p s' :
    createRoot alloc v s = Ok (p, s') → api_step s s'
| call_addChild n v s c w :
    addChild alloc n v (mem s) = Ok (c, w) →
    api_step s {| self := self s; mem := w |}
| call_deleteSubtree fuel target s s' :
    deleteSubtree show fuel target s = Ok s' → api_step s s'
| call_compress fuel s s' :
    compress fuel s = Ok s' → api_step s s'
| call_clear fuel s s' :
    clear show fuel s = Ok s' → api_step s s'
| set_showDebugMessages b s :
    api_step s
      {| self := {| showDebugMessages := b;
                    rootNodePtr := rootNodePtr (self s) |};
         mem := mem s |}
| caught_createRoot v s e s' :
    createRoot alloc v s = Throw e s' → api_step s s'
| caught_deleteSubtree fuel target s e s' :
    deleteSubtree show fuel target s = Throw e s' → api_step s s'
| caught_compress fuel s e s' :
    compress fuel s = Throw e s' → api_step s s'
| caught_clear fuel s e s' :
    clear show fuel s = Throw e s' → api_step s s'.

Inductive api_reachable : state T → Prop :=
| api_start :
    api_reachable
      {| self := GenericTree_default;
         mem := {| heap := ∅; cerr := ""; released := [] |} |}
| api_call s s' : api_reachable s → api_step s s' → api_reachable s'.

End Shape.

Arguments rtree T : clear implicits.

(** The shape predicates are decidable when the values are. *)
Global Instance TreeNode_eq_dec {T} `{EqDecision T} : EqDecision (TreeNode T).
Proof. solve_decision. Defined.

Global Instance repr_dec {T} `{EqDecision T} (h : gmap addr (TreeNode T)) p t :
  Decision (repr h p t).
Proof.
  refine (cast_if (decide (Forall (λ an, h !! an.1 = Some an.2) (cells p t)))).
  - intros a n Hin. rewrite Forall_forall in f. exact (f (a, n) Hin).
  - intros Hr. apply n. apply Forall_forall. intros [a nd] Hin.
    exact (Hr a nd Hin).
Defined.

Global Instance owns_dec {T} `{EqDecision T} (s : state T) ot :
  Decision (owns s ot).
Proof. destruct ot; simpl; apply _. Defined.

(** Closes a decidable goal by evaluating its decision procedure. *)
Ltac by_computation := apply (bool_decide_unpack _); vm_compute; exact I.

(** * Traversal orders

    What the explore loop of [deleteSubtree] and the loop of [Print] go
    through, read off the tree a heap region stands for. *)

Section Traversal.

Context {T : Type}.
Variable show : T → string.

(** The line printed for a value, or for a null pointer. *)
Definition entry_line (ov : option T) : string :=
  match ov with
  | Some v => show v +:+ endl
  | None => "[null]" +:+ endl
  end.

(** One trace line per entry, each behind the same prefix. *)
Definition trace (prefix : string) (vs : list (option T)) : string :=
  foldr (λ ov acc, prefix +:+ entry_line ov +:+ acc) "" vs.

(** The entries the explore loop pops, in the order it pops them: a node,
    then its slots from the rightmost to the leftmost, each one explored in
    full before the next; a tombstone is popped and skipped. *)
Fixpoint explored (t : rtree T) : list (option (addr * T)) :=
  match t with
  | RNode a v cs =>
      Some (a, v) :: mjoin (reverse (from_option explored [None] <$> cs))
  end.

Definition exploredF (f : list (option (rtree T)))
  : list (option (addr * T)) :=
  f ≫= from_option explored [None].

(** The nodes among some entries, and the values of the entries. *)
Definition nodes_of (es : list (option (addr * T))) : list (addr * T) :=
  omap id es.
Definition values_of (es : list (option (addr * T))) : list (option T) :=
  fmap (M := option) snd <$> es.

(** The nodes of a tree in the order the explore loop meets them. *)
Definition dfs (t : rtree T) : list (addr * T) := nodes_of (explored t).

(** The values of a tree in pre-order, children from the leftmost to the
    rightmost, with [None] for a tombstone. *)
Fixpoint preorder (t : rtree T) : list (option T) :=
  match t with
  | RNode a v cs => Some v :: (cs ≫= from_option preorder [None])
  end.

(** An entry of the stacks of [Print]: the slot, its depth, and its two
    margins. *)
Definition frame : Type := option (rtree T) * Z * list bool * list bool.

(** The entries pushed for the children of a node at depth [d] with the
    trailing margin [tm], leftmost on top: only the rightmost one leaves a
    blank below it. *)
Fixpoint kid_frames (d : Z) (tm : list bool) (cs : list (option (rtree T)))
  : list frame :=
  match cs with
  | [] => []
  | oc :: rest =>
      (oc, (d + 1)%Z, tm ++ [true], tm ++ [negb (bool_decide (rest = []))])
        :: kid_frames d tm rest
  end.

(** What [Print] visits, in order: depth, margin and value (or nothing for
    a tombstone) of a node, then its slots from the leftmost to the
    rightmost, each one in full before the next. *)
Fixpoint printed (d : Z) (cur tm : list bool) (t : rtree T)
  : list (Z * list bool * option T) :=
  match t with
  | RNode a v cs =>
      (d, cur, Some v)
        :: (fix kids (l : list (option (rtree T))) :=
              match l with
              | [] => []
              | oc :: rest =>
                  match oc with
                  | Some c =>
                      printed (d + 1)%Z (tm ++ [true])
                        (tm ++ [negb (bool_decide (rest = []))]) c
                  | None => [((d + 1)%Z, tm ++ [true], None)]
                  end ++ kids rest
              end) cs
  end.

(** The four stacks that hold some entries, the first one on top. *)
Definition stacks_of (F : list frame) : print_stacks :=
  {| nodesToExplore := (λ fr : frame, slot_ptr fr.1.1.1) <$> F;
     depthStack := (λ fr : frame, fr.1.1.2) <$> F;
     curMarginStack := (λ fr : frame, fr.1.2) <$> F;
     trailingMarginStack := (λ fr : frame, fr.2) <$> F |}.

Definition printed_frame (fr : frame) : list (Z * list bool * option T) :=
  let '(oc, d, cur, tm) := fr in
  match oc with
  | Some c => printed d cur tm c
  | None => [(d, cur, None)]
  end.

(** What one visit writes to the output stream, without and with the
    debug switch, and to [std::cerr] with it. *)
Definition diagram_rows (e : Z * list bool * option T) : string :=
  margin_row 1 e.1.2 +:+ margin_row 2 e.1.2 +:+ entry_line e.2.
Definition depth_note (e : Z * list bool * option T) : string :=
  "Depth: " +:+ pretty e.1.1.
Definition data_note (e : Z * list bool * option T) : string :=
  " Data: " +:+ entry_line e.2.

Definition cat {A} (f : A → string) (l : list A) : string :=
  foldr (λ x acc, f x +:+ acc) "" l.

(** The diagram of a tree. *)
Definition diagram (t : rtree T) : string :=
  cat diagram_rows (printed 0 [] [] t).

End Traversal.

(** * Concrete trees

    The scenario of the specification (a root "A" with children "B", "C"
    and "D", and "E" under "B"), built through the interface, and a few
    heaps around it. *)

Module Demo.

Definition start : state string :=
  {| self := GenericTree_default;
     mem := {| heap := ∅; cerr := ""; released := [] |} |}.

Definition after_createRoot (x : string) (s : state string) : state string :=
  match createRoot first_free x s with
  | Ok (_, s') => s'
  | _ => s
  end.

Definition after_addChild (n : addr) (x : string) (s : state string)
  : state string :=
  match addChild first_free n x (mem s) with
  | Ok (_, w) => {| self := self s; mem := w |}
  | _ => s
  end.

Definition only_A : state string := after_createRoot "A" start.
Definition with_B : state string := after_addChild 1 "B" only_A.
Definition with_C : state string := after_addChild 1 "C" with_B.
Definition with_D : state string := after_addChild 1 "D" with_C.
Definition scenario : state string := after_addChild 2 "E" with_D.

Definition scenario_tree : rtree string :=
  RNode 1 "A"
    [Some (RNode 2 "B" [Some (RNode 5 "E" [])]);
     Some (RNode 3 "C" []);
     Some (RNode 4 "D" [])].

(** A second tree, "P" with one child "Q", in the same free store. *)
Definition other_tree : rtree string := RNode 6 "P" [Some (RNode 7 "Q" [])].

Definition two_trees : world string :=
  set_heap
    (<[7%positive := mkNode (Some 6%positive) [] "Q"]>
       (<[6%positive := mkNode None [Some 7%positive] "P"]> (heap (mem scenario))))
    (mem scenario).

Definition tree_A : GenericTree := self scenario.
Definition tree_B : GenericTree :=
  {| showDebugMessages := false; rootNodePtr := Some 6%positive |}.

(** A node "Q" that names "P" as its parent while "P" does not list it. *)
Definition unlisted_elsewhere : state string :=
  {| self := tree_A;
     mem := set_heap
              (<[7%positive := mkNode (Some 6%positive) [] "Q"]>
                 (<[6%positive := mkNode None [] "P"]> (heap (mem scenario))))
              (mem scenario) |}.

(** A node "Z" that names the root "A" as its parent while "A" does not
    list it. *)
Definition unlisted_here : state string :=
  {| self := tree_A;
     mem := set_heap
              (<[8%positive := mkNode (Some 1%positive) [] "Z"]>
                 (heap (mem scenario)))
              (mem scenario) |}.

(** The scenario after "B" has been deleted: a tombstone under "A". *)
Definition without_B : state string :=
  match deleteSubtree id 10 (Some 2%positive) scenario with
  | Ok s' => s'
  | _ => scenario
  end.

(** A tree that is a single root "X". *)
Definition single_X : state string := after_createRoot "X" start.

Definition debugging (s : state string) : GenericTree :=
  {| showDebugMessages := true; rootNodePtr := rootNodePtr (self s) |}.

(** The shape of [without_B], and the scenario with the debug switch on. *)
Definition without_B_tree : rtree string :=
  RNode 1 "A" [None; Some (RNode 3 "C" []); Some (RNode 4 "D" [])].

Definition scenario_debugging : state string :=
  {| self := debugging scenario; mem := mem scenario |}.

(** A root "X" whose only child has been deleted: the root is the only
    node, and its children vector holds one null entry. *)
Definition lone_X : state string :=
  match deleteSubtree id 10 (Some 2%positive) (after_addChild 1 "Y" single_X) with
  | Ok s' => s'
  | _ => single_X
  end.

End Demo.

(** * Facts *)

Section Facts.

Context {T : Type}.
Variable show : T → string.

Implicit Types (t : rtree T) (f g cs : list (option (rtree T))).
Implicit Types (h : gmap addr (TreeNode T)).

Lemma rtree_ind' (P : rtree T → Prop) :
  (∀ a v cs, (∀ c, Some c ∈ cs → P c) → P (RNode a v cs)) → ∀ t, P t.
Proof.
  intros step. fix IH 1. intros [a v cs]. apply step.
  induction cs as [|[c|] cs IHcs]; intros c' Hin.
  - inversion Hin.
  - apply elem_of_cons in Hin as [Heq|Hin].
    + injection Heq as ->. apply IH.
    + by apply IHcs.
  - apply elem_of_cons in Hin as [Heq|Hin]; [discriminate | by apply IHcs].
Qed.

(** ** Addresses, sizes and cells *)

Lemma addrsF_cons_Some c f : addrsF (Some c :: f) = addrs c ++ addrsF f.
Proof. reflexivity. Qed.

Lemma addrsF_cons_None f : addrsF (None :: f) = addrsF f.
Proof. reflexivity. Qed.

Lemma addrsF_app f g : addrsF (f ++ g) = addrsF f ++ addrsF g.
Proof. apply bind_app. Qed.

Lemma elem_of_addrsF a f : a ∈ addrsF f ↔ ∃ c, Some c ∈ f ∧ a ∈ addrs c.
Proof.
  unfold addrsF. rewrite list_elem_of_bind. split.
  - intros ([c|] & Ha & Hc); [by exists c | inversion Ha].
  - intros (c & Hc & Ha). by exists (Some c).
Qed.

Lemma addrsF_reverse f : addrsF (reverse f) ≡ₚ addrsF f.
Proof. unfold addrsF. by rewrite reverse_Permutation. Qed.

Lemma slotsF_app f g : slotsF (f ++ g) = slotsF f + slotsF g.
Proof. apply sum_list_with_app. Qed.

Lemma slotsF_reverse f : slotsF (reverse f) = slotsF f.
Proof. apply sum_list_with_reverse. Qed.

Lemma raddr_in_addrs t : raddr t ∈ addrs t.
Proof. destruct t. left. Qed.

Lemma slots_pos t : 0 < slots t.
Proof. destruct t. simpl. lia. Qed.

Lemma cells_addrs p t : (cells p t).*1 = addrs t.
Proof.
  revert p. induction t as [a v cs IH] using rtree_ind'. intros p.
  simpl. f_equal.
  induction cs as [|[c|] cs IHcs]; simpl; [done|..].
  - rewrite fmap_app, IH by left. f_equal.
    apply IHcs. intros c' Hc'. apply IH. by right.
  - apply IHcs. intros c' Hc'. apply IH. by right.
Qed.

Lemma repr_unfold h p a v cs :
  repr h p (RNode a v cs) ↔
    h !! a = Some {| parentPtr := p; childrenPtrs := slot_ptr <$> cs; data := v |}
    ∧ ∀ c, Some c ∈ cs → repr h (Some a) c.
Proof.
  unfold repr. simpl. split.
  - intros H. split; [apply H; left|].
    intros c Hc a' n' Hin. apply H. right.
    apply list_elem_of_bind. by exists (Some c).
  - intros [Hroot Hkids] a' n' Hin.
    apply elem_of_cons in Hin as [Heq|Hin]; [by inversion Heq; subst|].
    apply list_elem_of_bind in Hin as ([c|] & Hin & Hoc); [|inversion Hin].
    by eapply Hkids.
Qed.

Lemma repr_root h p t :
  repr h p t →
  h !! raddr t
  = Some {| parentPtr := p; childrenPtrs := slot_ptr <$> rkids t; data := rval t |}.
Proof. destruct t. rewrite repr_unfold. by intros [? _]. Qed.

Lemma repr_kid h p t c :
  repr h p t → Some c ∈ rkids t → repr h (Some (raddr t)) c.
Proof. destruct t. rewrite repr_unfold. intros [_ H]. apply H. Qed.

(** A representation only reads the cells of its own nodes. *)
Lemma repr_frame h h' p t :
  (∀ a, a ∈ addrs t → h' !! a = h !! a) → repr h p t → repr h' p t.
Proof.
  intros Hsame Hr a n Hin. rewrite Hsame; [by apply Hr|].
  rewrite <- (cells_addrs p). apply list_elem_of_fmap. by exists (a, n).
Qed.

Lemma repr_allocated h p t a : repr h p t → a ∈ addrs t → is_Some (h !! a).
Proof.
  intros Hr Ha. rewrite <- (cells_addrs p) in Ha.
  apply list_elem_of_fmap in Ha as ([a' n] & -> & Hin). exists n. by apply Hr.
Qed.

Lemma reprF_kids h p t : repr h p t → reprF h (rkids t).
Proof. intros Hr c Hc. exists (Some (raddr t)). by eapply repr_kid. Qed.

Lemma reprF_app h f g : reprF h f → reprF h g → reprF h (f ++ g).
Proof.
  intros Hf Hg c Hc. apply elem_of_app in Hc as [Hc|Hc]; [by apply Hf | by apply Hg].
Qed.

Lemma reprF_reverse h f : reprF h f → reprF h (reverse f).
Proof. intros Hf c Hc. apply Hf. by apply elem_of_reverse. Qed.

Lemma reprF_tail h o f : reprF h (o :: f) → reprF h f.
Proof. intros Hf c Hc. apply Hf. by right. Qed.

Lemma kid_addrs_subseteq c cs : Some c ∈ cs → addrs c ⊆ addrsF cs.
Proof. intros Hc a Ha. apply elem_of_addrsF. by exists c. Qed.

Lemma NoDup_kids a v cs :
  NoDup (addrs (RNode a v cs)) → (a ∉ addrsF cs) ∧ NoDup (addrsF cs).
Proof. simpl. intros H. by apply NoDup_cons in H. Qed.

Lemma NoDup_addrsF_kid c cs : NoDup (addrsF cs) → Some c ∈ cs → NoDup (addrs c).
Proof.
  intros Hnd Hc. apply list_elem_of_split in Hc as (l1 & l2 & ->).
  rewrite addrsF_app, addrsF_cons_Some in Hnd.
  apply NoDup_app in Hnd as (_ & _ & Hnd). by apply NoDup_app in Hnd as (? & _).
Qed.

(** ** Subtrees *)

Lemma sub_step t c s : Some c ∈ rkids t → sub c s → sub t s.
Proof.
  intros Hc Hs. induction Hs as [|u s _ IH Hk].
  - by eapply sub_kid; [apply sub_refl|].
  - by eapply sub_kid.
Qed.

Lemma addrs_sub t n : n ∈ addrs t → ∃ s, sub t s ∧ raddr s = n.
Proof.
  induction t as [a v cs IH] using rtree_ind'. simpl.
  intros [->|Hin]%elem_of_cons.
  - eexists. split; [apply sub_refl | done].
  - apply elem_of_addrsF in Hin as (c & Hc & Hn).
    destruct (IH c Hc Hn) as (s & Hs & <-).
    exists s. split; [|done]. by eapply sub_step.
Qed.

Lemma sub_addrs t s : sub t s → addrs s ⊆ addrs t.
Proof.
  induction 1 as [|u s _ IH Hk]; [done|].
  intros a Ha. apply IH. destruct u as [b w cs]. right.
  apply elem_of_addrsF. by exists s.
Qed.

Lemma sub_NoDup t s : NoDup (addrs t) → sub t s → NoDup (addrs s).
Proof.
  intros Hnd. induction 1 as [|u s _ IH Hk]; [done|].
  destruct u as [b w cs]. apply NoDup_kids in IH as [_ IH].
  by eapply NoDup_addrsF_kid.
Qed.

Lemma sub_repr h p t s : repr h p t → sub t s → ∃ q, repr h q s.
Proof.
  intros Hr. induction 1 as [|u s _ [q IH] Hk]; [by exists p|].
  exists (Some (raddr u)). by eapply repr_kid.
Qed.

Lemma sub_slots t s : sub t s → slots s ≤ slots t.
Proof.
  induction 1 as [|u s _ IH Hk]; [done|].
  etrans; [|apply IH]. destruct u as [b w cs]. simpl in *.
  pose proof (sum_list_with_in (Some s) (from_option slots 1) cs Hk) as Hle.
  simpl in Hle. lia.
Qed.

(** ** The ownership walk *)

Lemma walkBack_repr h r t :
  ∀ p k,
    repr h p t →
    match p with
    | None => r = raddr t
    | Some q => ∀ fuel, k ≤ fuel → walkBack fuel h q = Ok r
    end →
    ∀ n fuel, n ∈ addrs t → k + slots t ≤ fuel → walkBack fuel h n = Ok r.
Proof.
  induction t as [a v cs IH] using rtree_ind'.
  intros p k Hr Hp.
  apply repr_unfold in Hr as [Hroot Hkids].
  assert (∀ fuel, k + 1 ≤ fuel → walkBack fuel h a = Ok r) as Hself.
  { intros fuel Hfuel. destruct fuel as [|fuel]; [lia|].
    simpl. unfold load. rewrite Hroot. simpl.
    destruct p as [q|]; [apply Hp; lia | by subst]. }
  intros n fuel Hn Hfuel. simpl in Hn, Hfuel.
  apply elem_of_cons in Hn as [->|Hn]; [apply Hself; lia|].
  apply elem_of_addrsF in Hn as (c & Hc & Hn).
  apply (IH c Hc (Some a) (k + 1)); auto.
  pose proof (sum_list_with_in (Some c) (from_option slots 1) cs Hc) as Hle.
  simpl in Hle. lia.
Qed.

Lemma walkBack_owned h t n fuel :
  repr h None t → n ∈ addrs t → slots t ≤ fuel →
  walkBack fuel h n = Ok (raddr t).
Proof.
  intros Hr Hn Hfuel. by apply (walkBack_repr h (raddr t) t None 0).
Qed.

(** ** The detach search *)

Lemma detach_not_listed n l : Some n ∉ l → detach n l = (l, false).
Proof.
  induction l as [|c l IH]; [done|]. intros Hn. simpl.
  destruct (decide (c = Some n)) as [->|_]; [by destruct Hn; left|].
  rewrite IH; [done|]. intros ?. apply Hn. by right.
Qed.

Lemma detach_listed n l : Some n ∈ l → (detach n l).2 = true.
Proof.
  induction l as [|c l IH]; [by intros ?%elem_of_nil|]. intros Hn. simpl.
  destruct (decide (c = Some n)) as [->|Hne]; [done|].
  apply elem_of_cons in Hn as [?|Hn]; [congruence|].
  specialize (IH Hn). by destruct (detach n l).
Qed.

Lemma detach_once n l :
  NoDup (omap id l) →
  (detach n l).1 = (λ c, if decide (c = Some n) then None else c) <$> l.
Proof.
  induction l as [|c l IH]; [done|]. intros Hnd. simpl.
  destruct (decide (c = Some n)) as [->|Hne]; simpl.
  - f_equal. simpl in Hnd. apply NoDup_cons in Hnd as [Hn _].
    clear IH. induction l as [|c l IH]; [done|]. simpl.
    destruct (decide (c = Some n)) as [->|_].
    + destruct Hn. simpl. left.
    + f_equal. apply IH. intros Hin. apply Hn.
      destruct c; simpl; [by right | done].
  - assert (NoDup (omap id l)) as Hnd'.
    { destruct c; simpl in Hnd; [by apply NoDup_cons in Hnd as [_ ?] | done]. }
    specialize (IH Hnd'). destruct (detach n l) as [rest' found].
    simpl in *. by f_equal.
Qed.

Lemma no_tombstone_needed n (nd : TreeNode T) :
  Some n ∉ childrenPtrs nd → tombstone n nd = nd.
Proof.
  intros Hn. destruct nd as [p l v]. unfold tombstone, set_children. simpl in *.
  f_equal. induction l as [|c l IH]; [done|]. simpl.
  destruct (decide (c = Some n)) as [->|_]; [by destruct Hn; left|].
  f_equal. apply IH. intros ?. apply Hn. by right.
Qed.

Lemma kid_ptrs_NoDup cs :
  NoDup (addrsF cs) → NoDup (omap id (slot_ptr <$> cs)).
Proof.
  induction cs as [|[c|] cs IH]; intros Hnd; [constructor| |by apply IH].
  rewrite addrsF_cons_Some in Hnd.
  apply NoDup_app in Hnd as (_ & Hdisj & Hnd).
  simpl. apply NoDup_cons. split; [|by apply IH].
  intros Hin. apply (Hdisj (raddr c)); [apply raddr_in_addrs|].
  apply list_elem_of_omap in Hin as (o & Ho & Heq). simpl in Heq. subst o.
  apply list_elem_of_fmap in Ho as ([c'|] & Heq & Hc'); [|done].
  simpl in Heq. injection Heq as Heq.
  apply elem_of_addrsF. exists c'. split; [done|].
  rewrite Heq. apply raddr_in_addrs.
Qed.

(** ** The explore loop *)

Lemma push_all_reverse (cs st : list (option addr)) :
  push_all cs st = reverse cs ++ st.
Proof.
  unfold push_all. revert st. induction cs as [|c cs IH]; intros st; [done|].
  simpl. rewrite IH, reverse_cons. by rewrite <- app_assoc.
Qed.

Lemma explore_forest dbg h :
  ∀ fuel f del err,
    slotsF f ≤ fuel → reprF h f →
    ∃ L err',
      explore show fuel dbg h (slot_ptr <$> f) del err
      = Ok ((Some <$> L) ++ del, err')
      ∧ L ≡ₚ addrsF f
      ∧ (dbg = false → err' = err).
Proof.
  induction fuel as [|fuel IH]; intros [|[[a v cs]|] f] del err Hfuel Hr;
    try (exists [], err; by simpl); try (simpl in Hfuel; lia).
  - destruct (Hr (RNode a v cs)) as [p Hp]; [left|].
    pose proof (reprF_kids _ _ _ Hp) as Hkids.
    apply repr_unfold in Hp as [Hroot _]. simpl in Hkids.
    set (err1 := if dbg then err +:+ "Exploring node: " +:+ (show v +:+ endl)
                 else err).
    destruct (IH (reverse cs ++ f) (Some a :: del) err1) as (L & err' & Hrun & HL & Herr).
    { rewrite slotsF_app, slotsF_reverse.
      unfold slotsF in *. simpl in Hfuel. unfold slotsF. lia. }
    { apply reprF_app; [by apply reprF_reverse | by eapply reprF_tail]. }
    exists (L ++ [a]), err'. split; [|split].
    + simpl. unfold load. rewrite Hroot. simpl.
      rewrite push_all_reverse, <- fmap_reverse, <- fmap_app.
      rewrite (fmap_app Some L [a]), <- app_assoc. simpl.
      destruct dbg; simpl; exact Hrun.
    + rewrite HL, addrsF_app, addrsF_reverse, addrsF_cons_Some. simpl.
      rewrite <- Permutation_cons_append. unfold addrsF.
      by rewrite app_comm_cons.
    + intros ->. by apply Herr.
  - set (err1 := if dbg then err +:+ "Exploring node: " +:+ ("[null]" +:+ endl)
                 else err).
    destruct (IH f del err1) as (L & err' & Hrun & HL & Herr).
    { unfold slotsF in *. simpl in Hfuel. lia. }
    { by eapply reprF_tail. }
    exists L, err'. split; [|split].
    + simpl. destruct dbg; simpl; exact Hrun.
    + by rewrite addrsF_cons_None.
    + intros ->. by apply Herr.
Qed.

(** ** The delete loop *)

Lemma release_all dbg :
  ∀ L (w : world T),
    NoDup L → (∀ a, a ∈ L → is_Some (heap w !! a)) →
    ∃ w',
      release show dbg (Some <$> L) w = Ok w'
      ∧ (∀ a, heap w' !! a = if decide (a ∈ L) then None else heap w !! a)
      ∧ released w' = released w ++ L
      ∧ (dbg = false → cerr w' = cerr w).
Proof.
  induction L as [|b L IH]; intros w Hnd Hall.
  { exists w. simpl. rewrite app_nil_r. split_and!; try done;
      intros a; by rewrite decide_False by apply not_elem_of_nil. }
  apply NoDup_cons in Hnd as [Hb Hnd].
  destruct (Hall b) as [nb Hnb]; [left|].
  set (w1 := if dbg then put_cerr ("Deleting node: " +:+ (show (data nb) +:+ endl)) w
             else w).
  assert (heap w1 = heap w) as Hh1 by (unfold w1; by destruct dbg).
  assert (released w1 = released w) as Hr1 by (unfold w1; by destruct dbg).
  destruct (IH {| heap := delete b (heap w1); cerr := cerr w1;
                  released := released w1 ++ [b] |})
    as (w' & Hrun & Hheap & Hrel & Hcerr); [done| |].
  { intros a Ha. simpl. rewrite Hh1, lookup_delete_ne; [apply Hall; by right|].
    intros ->. done. }
  exists w'. split_and!.
  - simpl. unfold load. rewrite Hnb. simpl. subst w1.
    destruct dbg; simpl in *; rewrite Hnb; simpl; exact Hrun.
  - intros a. rewrite Hheap. simpl. rewrite Hh1.
    destruct (decide (a = b)) as [->|Hne].
    + rewrite lookup_delete_eq. rewrite (decide_True (P := b ∈ b :: L)) by left.
      by destruct (decide (b ∈ L)).
    + rewrite lookup_delete_ne by done.
      destruct (decide (a ∈ L)) as [Hin|Hnin].
      * by rewrite decide_True by (by right).
      * rewrite decide_False; [done|]. by intros [?|?]%elem_of_cons.
  - rewrite Hrel. simpl. rewrite Hr1. by rewrite <- app_assoc.
  - intros ->. rewrite Hcerr by done. done.
Qed.

(** ** Subtree deletion on an owned tree *)

Lemma sub_inv t s : sub t s → s = t ∨ ∃ u, sub t u ∧ Some s ∈ rkids u.
Proof. destruct 1 as [|u s Hu Hk]; [by left | right; by exists u]. Qed.

Lemma kid_parent h p t a nd n :
  repr h p t → a ∈ addrs t → h !! a = Some nd → Some n ∈ childrenPtrs nd →
  ∃ nn, h !! n = Some nn ∧ parentPtr nn = Some a.
Proof.
  intros Hr Ha Hnd Hn.
  apply addrs_sub in Ha as (u & Hu & <-).
  destruct (sub_repr _ _ _ _ Hr Hu) as [q Hq].
  rewrite (repr_root _ _ _ Hq) in Hnd. injection Hnd as <-. simpl in Hn.
  apply list_elem_of_fmap in Hn as ([c|] & Heq & Hc); [|done].
  simpl in Heq. injection Heq as ->.
  eexists. split; [apply repr_root; by eapply repr_kid | done].
Qed.

(** The detach step on a node of an owned tree that is not the root. *)
Lemma detach_kid (s : state T) t u sb :
  repr (heap (mem s)) None t → NoDup (addrs t) →
  sub t u → Some sb ∈ rkids u →
  ∃ pn,
    heap (mem s) !! raddr u = Some pn
    ∧ detach_from_parent (raddr sb) s
      = Ok (set_heap (<[raddr u := tombstone (raddr sb) pn]> (heap (mem s))) (mem s)).
Proof.
  intros Hr Hnd Hu Hk.
  destruct (sub_repr _ _ _ _ Hr Hu) as [q Hq].
  pose proof (repr_root _ _ _ Hq) as Hpn.
  pose proof (repr_root _ _ _ (repr_kid _ _ _ _ Hq Hk)) as Htn.
  eexists. split; [exact Hpn|].
  unfold detach_from_parent, load. rewrite Htn. simpl. rewrite Hpn. simpl.
  assert (Some (raddr sb) ∈ slot_ptr <$> rkids u) as Hin.
  { apply list_elem_of_fmap. by exists (Some sb). }
  pose proof (detach_listed _ _ Hin) as Hfound.
  assert (NoDup (omap id (slot_ptr <$> rkids u))) as Hptrs.
  { apply kid_ptrs_NoDup. pose proof (sub_NoDup _ _ Hnd Hu) as Hndu.
    destruct u. by apply NoDup_kids in Hndu as [_ ?]. }
  pose proof (detach_once (raddr sb) _ Hptrs) as Hlist.
  destruct (detach (raddr sb) (slot_ptr <$> rkids u)) as [cs found].
  simpl in *. subst. done.
Qed.

Lemma deleteSubtree_owned (s : state T) t n fuel :
  owns s (Some t) → n ∈ addrs t → slots t ≤ fuel →
  ∃ sb L w1 err w',
    sub t sb ∧ raddr sb = n ∧ L ≡ₚ addrs sb
    ∧ detach_from_parent n s = Ok w1
    ∧ (∀ a, a ∈ addrs sb → heap w1 !! a = heap (mem s) !! a)
    ∧ cerr w1 = cerr (mem s)
    ∧ explore show fuel (showDebugMessages (self s)) (heap w1) [Some n] []
        (cerr w1) = Ok (Some <$> L, err)
    ∧ release show (showDebugMessages (self s)) (Some <$> L)
        {| heap := heap w1; cerr := err; released := released w1 |} = Ok w'
    ∧ deleteSubtree show fuel (Some n) s
      = Ok {| self := if decide (n = raddr t) then set_root None (self s)
                      else self s;
              mem := w' |}
    ∧ (∀ a, heap w' !! a
            = if decide (a ∈ addrs sb) then None
              else if decide (a ∈ addrs t)
                   then tombstone n <$> heap (mem s) !! a
                   else heap (mem s) !! a)
    ∧ released w' = released (mem s) ++ L
    ∧ (showDebugMessages (self s) = false → cerr w' = cerr (mem s)).
Proof.
  intros (Hroot & Hr & Hnd) Hn Hfuel.
  set (h := heap (mem s)) in *.
  destruct (addrs_sub _ _ Hn) as (sb & Hsb & Hsbn).
  pose proof (sub_NoDup _ _ Hnd Hsb) as Hndsb.
  pose proof (sub_slots _ _ Hsb) as Hslots.
  pose proof (walkBack_owned _ _ _ _ Hr Hn Hfuel) as Hwalk.
  (* the detach step *)
  assert (∃ w1,
    detach_from_parent n s = Ok w1
    ∧ released w1 = released (mem s) ∧ cerr w1 = cerr (mem s)
    ∧ (∀ a, a ∈ addrs sb → heap w1 !! a = h !! a)
    ∧ (∀ a, a ∉ addrs sb →
         heap w1 !! a = if decide (a ∈ addrs t) then tombstone n <$> h !! a
                        else h !! a)
    ∧ (n = raddr t ↔ sb = t)) as (w1 & Hdet & Hrel1 & Hcerr1 & Hin1 & Hout1 & Hcase).
  { destruct (sub_inv _ _ Hsb) as [->|(u & Hu & Hk)].
    - exists (mem s). split_and!; try done.
      + unfold detach_from_parent, load. subst n.
        fold h. by rewrite (repr_root _ _ _ Hr).
      + intros a Ha. by rewrite decide_False.
    - destruct (detach_kid s t u sb Hr Hnd Hu Hk) as (pn & Hpn & Hdet).
      rewrite Hsbn in Hdet. fold h in Hpn, Hdet.
      destruct (sub_repr _ _ _ _ Hr Hu) as [q Hq].
      pose proof (repr_root _ _ _ (repr_kid _ _ _ _ Hq Hk)) as Htn.
      rewrite Hsbn in Htn.
      assert (raddr u ∉ addrs sb) as Hfresh.
      { pose proof (sub_NoDup _ _ Hnd Hu) as Hndu. destruct u as [b w cs].
        apply NoDup_kids in Hndu as [Hb _]. intros Hin. apply Hb.
        by eapply kid_addrs_subseteq. }
      assert (raddr u ∈ addrs t) as Hpin.
      { eapply sub_addrs; [done|]. apply raddr_in_addrs. }
      eexists. split_and!; [exact Hdet|done|done| | |].
      + intros a Ha. simpl. rewrite lookup_insert_ne; [done|].
        intros Heq. by rewrite Heq in Hfresh.
      + intros a Ha. simpl.
        destruct (decide (a = raddr u)) as [->|Hne].
        * rewrite lookup_insert_eq, decide_True by done. by rewrite Hpn.
        * rewrite lookup_insert_ne by done.
          destruct (decide (a ∈ addrs t)) as [Hat|]; [|done].
          destruct (repr_allocated _ _ _ _ Hr Hat) as [nd Hndl].
          fold h in Hndl. rewrite Hndl. simpl. f_equal. symmetry.
          apply no_tombstone_needed. intros Hlisted.
          destruct (kid_parent _ _ _ _ _ _ Hr Hat Hndl Hlisted) as (nn & Hnn & Hpar).
          fold h in Hnn. rewrite Htn in Hnn. injection Hnn as <-.
          simpl in Hpar. congruence.
      + split; [|by intros ->].
        intros ->. pose proof (repr_root _ _ _ Hr) as Hrt. fold h in Hrt.
        rewrite Htn in Hrt. discriminate. }
  (* the explore loop *)
  destruct (sub_repr _ _ _ _ Hr Hsb) as [q Hq].
  assert (repr (heap w1) q sb) as Hq1 by (by eapply repr_frame).
  destruct (explore_forest (showDebugMessages (self s)) (heap w1) fuel [Some sb] []
              (cerr w1)) as (L & err & Hexp & HL & Herr).
  { unfold slotsF. simpl. lia. }
  { intros c Hc. apply list_elem_of_singleton in Hc. injection Hc as ->. by exists q. }
  simpl in Hexp. rewrite Hsbn, app_nil_r in Hexp.
  unfold addrsF in HL. simpl in HL. rewrite app_nil_r in HL.
  (* the delete loop *)
  destruct (release_all (showDebugMessages (self s)) L
              {| heap := heap w1; cerr := err; released := released w1 |})
    as (w' & Hrelease & Hheap' & Hrel' & Hcerr').
  { by rewrite HL. }
  { intros a Ha. simpl. rewrite HL in Ha. by eapply repr_allocated. }
  simpl in Hheap', Hrel', Hcerr'.
  exists sb, L, w1, err, w'. split_and!; try done.
  - unfold deleteSubtree. fold h. rewrite Hwalk. simpl.
    rewrite decide_False by (rewrite Hroot; by intros []).
    rewrite Hdet. simpl. rewrite Hexp. simpl. rewrite Hrelease. simpl.
    rewrite Hroot. do 2 f_equal.
    destruct (decide (n = raddr t)) as [->|Hne].
    + by rewrite bool_decide_eq_true_2.
    + rewrite bool_decide_eq_false_2; [done|]. congruence.
  - intros a. rewrite Hheap'.
    rewrite (decide_ext (a ∈ L) (a ∈ addrs sb)) by (by rewrite HL).
    destruct (decide (a ∈ addrs sb)); [done | by apply Hout1].
  - by rewrite Hrel', Hrel1.
  - intros Hdbg. rewrite Hcerr', Herr, Hcerr1; done.
Qed.

(** ** Reachability on the heap and the nodes of a tree *)

Lemma reach_addrs h p t b : repr h p t → reach h (raddr t) b ↔ b ∈ addrs t.
Proof.
  intros Hr. split.
  - intros Hreach. remember (raddr t) as a eqn:Ha.
    revert p t Hr Ha.
    induction Hreach as [a|a n c b Hn Hc _ IH]; intros p t Hr ->.
    + apply raddr_in_addrs.
    + rewrite (repr_root _ _ _ Hr) in Hn. injection Hn as <-. simpl in Hc.
      apply list_elem_of_fmap in Hc as ([k|] & Heq & Hk); [|done].
      simpl in Heq. injection Heq as ->.
      destruct t as [a v cs]. right. apply elem_of_addrsF. exists k.
      split; [done|]. eapply IH; [by eapply repr_kid | done].
  - revert p Hr. induction t as [a v cs IH] using rtree_ind'.
    intros p Hr Hb. simpl in Hb. apply elem_of_cons in Hb as [->|Hb].
    + apply reach_here.
    + apply elem_of_addrsF in Hb as (c & Hc & Hb).
      pose proof (repr_kid _ _ _ _ Hr Hc) as Hkid.
      eapply reach_child; [by eapply repr_root | | by eapply IH].
      simpl. apply list_elem_of_fmap. by exists (Some c).
Qed.

(** ** Compaction on an owned tree *)

Lemma sweep_spec (cs queue : list (option addr)) :
  sweep cs queue = (filter is_Some cs, queue ++ filter is_Some cs).
Proof.
  unfold sweep.
  assert (∀ acc q,
    foldl (λ '(compressedChildrenPtrs, q) (childPtr : option addr),
             match childPtr with
             | Some _ => (compressedChildrenPtrs ++ [childPtr], q ++ [childPtr])
             | None => (compressedChildrenPtrs, q)
             end) (acc, q) cs
    = (acc ++ filter is_Some cs, q ++ filter is_Some cs)) as Hgen.
  { induction cs as [|[c|] cs IH]; intros acc q; simpl.
    - by rewrite !app_nil_r.
    - rewrite IH, filter_cons_True by done. by rewrite <- !app_assoc.
    - rewrite IH, filter_cons_False; [done|]. by intros [? ?]. }
  apply Hgen.
Qed.

Lemma live_ptrs (cs : list (option (rtree T))) :
  filter is_Some (slot_ptr <$> cs) = slot_ptr <$> filter is_Some cs.
Proof.
  induction cs as [|[c|] cs IH]; [done|..]; simpl.
  - rewrite !filter_cons_True by done. simpl. by f_equal.
  - rewrite !filter_cons_False by (by intros [? ?]). done.
Qed.

Lemma addrsF_live cs : addrsF (filter is_Some cs) = addrsF cs.
Proof.
  induction cs as [|[c|] cs IH]; [done|..].
  - rewrite filter_cons_True by done. rewrite !addrsF_cons_Some. by f_equal.
  - rewrite filter_cons_False by (by intros [? ?]). done.
Qed.

Lemma slotsF_live cs : slotsF (filter is_Some cs) ≤ slotsF cs.
Proof.
  induction cs as [|[c|] cs IH]; [done|..].
  - rewrite filter_cons_True by done. unfold slotsF in *. simpl. lia.
  - rewrite filter_cons_False by (by intros [? ?]). unfold slotsF in *. simpl. lia.
Qed.

Lemma compress_forest this :
  ∀ fuel f (w : world T),
    Forall is_Some f → slotsF f ≤ fuel → reprF (heap w) f → NoDup (addrsF f) →
    ∃ w',
      compress_loop fuel this w (slot_ptr <$> f) = Ok w'
      ∧ (∀ a, heap w' !! a = if decide (a ∈ addrsF f) then squash <$> heap w !! a
                             else heap w !! a)
      ∧ cerr w' = cerr w ∧ released w' = released w.
Proof.
  induction fuel as [|fuel IH]; intros [|[[a v cs]|] f] w Hsome Hfuel Hr Hnd;
    try (exists w; simpl; split_and!; try done;
         intros b; by rewrite decide_False by apply not_elem_of_nil);
    try (unfold slotsF in Hfuel; simpl in Hfuel; lia);
    try (apply Forall_cons in Hsome as [[? ?] _]; done).
  apply Forall_cons in Hsome as [_ Hsome].
  destruct (Hr (RNode a v cs)) as [p Hp]; [left|].
  pose proof (reprF_kids _ _ _ Hp) as Hkids. simpl in Hkids.
  apply repr_unfold in Hp as [Hroot _].
  rewrite addrsF_cons_Some in Hnd. simpl in Hnd.
  apply NoDup_cons in Hnd as [Ha Hnd].
  set (nd := {| parentPtr := p; childrenPtrs := slot_ptr <$> cs; data := v |}) in *.
  set (w1 := set_heap (<[a := squash nd]> (heap w)) w).
  destruct (IH (f ++ filter is_Some cs) w1) as (w' & Hrun & Hheap & Hcerr & Hrel).
  { apply Forall_app. split; [done|]. apply Forall_forall.
    by intros x [? _]%list_elem_of_filter. }
  { rewrite slotsF_app. pose proof (slotsF_live cs).
    unfold slotsF in *. simpl in Hfuel. lia. }
  { intros c Hc.
    assert (∃ q, repr (heap w) q c) as [q Hq].
    { apply elem_of_app in Hc as [Hc|Hc].
      - apply Hr. by right.
      - apply list_elem_of_filter in Hc as [_ Hc]. by apply Hkids. }
    exists q. eapply repr_frame; [|exact Hq].
    intros b Hb. simpl. apply lookup_insert_ne. intros ->. apply Ha.
    apply elem_of_app in Hc as [Hc|Hc].
    - apply elem_of_app. right. apply elem_of_addrsF. by exists c.
    - apply list_elem_of_filter in Hc as [_ Hc].
      apply elem_of_app. left. apply elem_of_addrsF. by exists c. }
  { rewrite addrsF_app, addrsF_live.
    apply NoDup_app in Hnd as (Hnd1 & Hdisj & Hnd2).
    apply NoDup_app. split_and!; [done| |done].
    intros x Hx Hx'. by apply (Hdisj x). }
  exists w'. split_and!; [|intros b|done|done].
  - simpl. unfold load. rewrite Hroot. simpl.
    rewrite sweep_spec, live_ptrs, <- fmap_app.
    subst w1 nd. unfold squash in Hrun. simpl in Hrun.
    rewrite live_ptrs in Hrun. exact Hrun.
  - rewrite Hheap. simpl. rewrite addrsF_app, addrsF_live.
    change (cs ≫= from_option addrs []) with (addrsF cs) in *.
    destruct (decide (b = a)) as [->|Hne].
    + rewrite lookup_insert_eq, Hroot.
      rewrite decide_False, decide_True; [done|left|].
      intros Hin. apply Ha. apply elem_of_app in Hin as [?|?];
        apply elem_of_app; auto.
    + rewrite lookup_insert_ne by done. apply decide_ext.
      rewrite elem_of_cons, !elem_of_app. tauto.
Qed.

Lemma compress_owned (s : state T) t fuel :
  owns s (Some t) → slots t ≤ fuel →
  ∃ w',
    compress fuel s = Ok {| self := self s; mem := w' |}
    ∧ (∀ a, heap w' !! a = if decide (a ∈ addrs t) then squash <$> heap (mem s) !! a
                           else heap (mem s) !! a)
    ∧ cerr w' = cerr (mem s) ∧ released w' = released (mem s).
Proof.
  intros (Hroot & Hr & Hnd) Hfuel.
  destruct (compress_forest (self s) fuel [Some t] (mem s))
    as (w' & Hrun & Hheap & Hcerr & Hrel).
  { by repeat constructor. }
  { unfold slotsF. simpl. lia. }
  { intros c Hc. apply list_elem_of_singleton in Hc. injection Hc as ->.
    by exists None. }
  { unfold addrsF. simpl. by rewrite app_nil_r. }
  unfold addrsF in Hheap. simpl in Hheap. rewrite app_nil_r in Hheap.
  exists w'. split_and!; try done.
  unfold compress. rewrite Hroot. simpl in Hrun. by rewrite Hrun.
Qed.

(** The exploration queue never holds a null pointer. *)
Lemma compress_loop_no_throw this :
  ∀ fuel (w : world T) queue e s',
    Forall is_Some queue → compress_loop fuel this w queue ≠ Throw e s'.
Proof.
  induction fuel as [|fuel IH]; intros w [|[a|] queue] e s' Hq;
    try done; try (apply Forall_cons in Hq as [[? ?] _]; done).
  apply Forall_cons in Hq as [_ Hq]. simpl. unfold load.
  destruct (heap w !! a) as [n|]; [|done]. simpl.
  rewrite sweep_spec. apply IH.
  apply Forall_app. split; [done|]. apply Forall_forall.
  by intros x [? _]%list_elem_of_filter.
Qed.

(** So [compress] never throws, in any state at all. *)
Lemma compress_no_throw (s : state T) fuel e s' :
  compress fuel s ≠ Throw e s'.
Proof.
  unfold compress. destruct (rootNodePtr (self s)) as [r|]; [|done].
  destruct (compress_loop fuel (self s) (mem s) [Some r]) eqn:Hloop;
    simpl; try done.
  intros [= -> ->]. revert Hloop. apply compress_loop_no_throw.
  by repeat constructor.
Qed.

(** ** More fuel never changes a result *)

Lemma walkBack_mono h :
  ∀ fuel fuel' n (o : outcome T addr),
    walkBack fuel h n = o → o ≠ OutOfFuel → fuel ≤ fuel' →
    walkBack fuel' h n = o.
Proof.
  induction fuel as [|fuel IH]; intros [|fuel'] n o Hrun Ho Hle;
    try lia; simpl in *; unfold load in *;
    destruct (h !! n) as [nd|]; simpl in *; try done;
    destruct (parentPtr nd); try done; try congruence.
  apply IH; [done|done|lia].
Qed.

Lemma explore_mono dbg h :
  ∀ fuel fuel' st del err (o : outcome T (list (option addr) * string)),
    explore show fuel dbg h st del err = o → o ≠ OutOfFuel → fuel ≤ fuel' →
    explore show fuel' dbg h st del err = o.
Proof.
  induction fuel as [|fuel IH]; intros [|fuel'] [|c st] del err o Hrun Ho Hle;
    try lia; try done; try (simpl in *; congruence).
  simpl in *.
  destruct (if dbg then _ else _) as [err'| | |]; simpl in *; try done.
  destruct c as [a|]; simpl in *.
  - unfold load in *. destruct (h !! a); simpl in *; [|done].
    apply IH; [done|done|lia].
  - apply IH; [done|done|lia].
Qed.

Lemma compress_loop_mono this :
  ∀ fuel fuel' (w : world T) queue (o : outcome T (world T)),
    compress_loop fuel this w queue = o → o ≠ OutOfFuel → fuel ≤ fuel' →
    compress_loop fuel' this w queue = o.
Proof.
  induction fuel as [|fuel IH]; intros [|fuel'] w [|c queue] o Hrun Ho Hle;
    try lia; try done; try (simpl in *; congruence).
  simpl in *. destruct c as [a|]; [|done].
  unfold load in *. destruct (heap w !! a) as [n|]; simpl in *; [|done].
  destruct (sweep (childrenPtrs n) queue) as [cc q].
  apply IH; [done|done|lia].
Qed.

Lemma deleteSubtree_stable fuel fuel' target (s : state T)
    (o : outcome T (state T)) :
  deleteSubtree show fuel target s = o → o ≠ OutOfFuel → fuel ≤ fuel' →
  deleteSubtree show fuel' target s = o.
Proof.
  intros Hrun Ho Hle. destruct target as [n|]; [|done].
  unfold deleteSubtree in *.
  destruct (walkBack fuel (heap (mem s)) n) as [walk| | |] eqn:Hwalk;
    [| | |simpl in Hrun; congruence];
    rewrite (walkBack_mono _ _ _ _ _ Hwalk) by done; simpl in *; try done.
  destruct (decide (Some walk ≠ rootNodePtr (self s))); [done|].
  destruct (detach_from_parent n s) as [w1| | |]; simpl in *; try done.
  destruct (explore show fuel _ _ _ _ _) as [[dl err]| | |] eqn:Hexp;
    [| | |simpl in Hrun; congruence];
    rewrite (explore_mono _ _ _ _ _ _ _ _ Hexp) by done; done.
Qed.

Lemma deleteSubtree_mono fuel fuel' target (s s' : state T) :
  deleteSubtree show fuel target s = Ok s' → fuel ≤ fuel' →
  deleteSubtree show fuel' target s = Ok s'.
Proof. intros Hrun Hle. by eapply deleteSubtree_stable. Qed.

Lemma compress_mono fuel fuel' (s s' : state T) :
  compress fuel s = Ok s' → fuel ≤ fuel' → compress fuel' s = Ok s'.
Proof.
  intros Hrun Hle. unfold compress in *.
  destruct (rootNodePtr (self s)) as [r|]; [|done].
  destruct (compress_loop fuel _ _ _) as [w| | |] eqn:Hloop;
    simpl in Hrun; try done.
  rewrite (compress_loop_mono _ _ _ _ _ _ Hloop) by done. done.
Qed.

(** ** The shape left by a deletion *)

Lemma sub_down t s : sub t s → s = t ∨ ∃ c, Some c ∈ rkids t ∧ sub c s.
Proof.
  induction 1 as [|u s Hu IH Hk]; [by left|]. right.
  destruct IH as [->|(c & Hc & Hcu)].
  - exists s. split; [done | apply sub_refl].
  - exists c. split; [done | by eapply sub_kid].
Qed.

Lemma sub_same_root t s : NoDup (addrs t) → sub t s → raddr s = raddr t → s = t.
Proof.
  intros Hnd Hs Heq. apply sub_down in Hs as [->|(c & Hc & Hs)]; [done|].
  destruct t as [a v cs]. apply NoDup_kids in Hnd as [Ha _].
  destruct Ha. simpl in Heq. rewrite <- Heq.
  eapply kid_addrs_subseteq; [exact Hc|].
  eapply sub_addrs; [exact Hs | apply raddr_in_addrs].
Qed.

Lemma filter_all {A} (P : A → Prop) `{∀ x, Decision (P x)} (l : list A) :
  (∀ x, x ∈ l → P x) → filter P l = l.
Proof.
  induction l as [|x l IH]; intros Hall; [done|].
  rewrite filter_cons_True by (apply Hall; left).
  f_equal. apply IH. intros y Hy. apply Hall. by right.
Qed.

Lemma filter_none {A} (P : A → Prop) `{∀ x, Decision (P x)} (l : list A) :
  (∀ x, x ∈ l → ¬ P x) → filter P l = [].
Proof.
  induction l as [|x l IH]; intros Hall; [done|].
  rewrite filter_cons_False by (apply Hall; left).
  apply IH. intros y Hy. apply Hall. by right.
Qed.

Lemma prune_unfold n a v cs :
  prune n (RNode a v cs) = RNode a v (prune_slot n <$> cs).
Proof. reflexivity. Qed.

Lemma raddr_prune n t : raddr (prune n t) = raddr t.
Proof. by destruct t. Qed.

Lemma prune_id n : ∀ t, n ∉ addrs t → prune n t = t.
Proof.
  induction t as [a v cs IH] using rtree_ind'. intros Hn.
  rewrite prune_unfold. f_equal.
  assert (n ∉ addrsF cs) as Hcs by (intros ?; apply Hn; by right).
  clear Hn. induction cs as [|[c|] cs IHcs]; [done|..]; simpl.
  - rewrite addrsF_cons_Some in Hcs.
    rewrite decide_False.
    2:{ intros <-. apply Hcs, elem_of_app. left. apply raddr_in_addrs. }
    rewrite IH; [|left|intros ?; apply Hcs, elem_of_app; by left].
    f_equal. apply IHcs.
    + intros c' Hc'. apply IH. by right.
    + intros ?. apply Hcs, elem_of_app. by right.
  - f_equal. apply IHcs; [|done]. intros c' Hc'. apply IH. by right.
Qed.

Lemma prune_slots_id n cs : n ∉ addrsF cs → prune_slot n <$> cs = cs.
Proof.
  induction cs as [|[c|] cs IH]; intros Hn; [done|..]; simpl.
  - rewrite addrsF_cons_Some in Hn.
    rewrite decide_False.
    2:{ intros <-. apply Hn, elem_of_app. left. apply raddr_in_addrs. }
    rewrite prune_id by (intros ?; apply Hn, elem_of_app; by left).
    f_equal. apply IH. intros ?. apply Hn, elem_of_app. by right.
  - f_equal. by apply IH.
Qed.

Lemma prune_cells n :
  ∀ t p a nd,
    (a, nd) ∈ cells p (prune n t) →
    ∃ nd0, (a, nd0) ∈ cells p t ∧ nd = tombstone n nd0.
Proof.
  induction t as [r v cs IH] using rtree_ind'. intros p a nd Hin.
  rewrite prune_unfold in Hin. simpl in Hin.
  apply elem_of_cons in Hin as [Heq|Hin].
  - injection Heq as -> ->. eexists. split; [left|].
    unfold tombstone, set_children. simpl. f_equal.
    rewrite <- !list_fmap_compose. apply list_fmap_ext.
    intros _ [c|] _; simpl; [|done].
    destruct (decide (raddr c = n)) as [->|Hne].
    + by rewrite decide_True.
    + rewrite decide_False by congruence. simpl. by rewrite raddr_prune.
  - apply list_elem_of_bind in Hin as (slot & Hin & Hslot).
    apply list_elem_of_fmap in Hslot as ([c|] & -> & Hc); simpl in Hin;
      [|by apply elem_of_nil in Hin].
    destruct (decide (raddr c = n)); simpl in Hin; [by apply elem_of_nil in Hin|].
    destruct (IH c Hc _ _ _ Hin) as (nd0 & Hnd0 & ->).
    exists nd0. split; [|done]. simpl. right.
    apply list_elem_of_bind. by exists (Some c).
Qed.

Lemma prune_addrs n sb :
  ∀ t, NoDup (addrs t) → raddr t ≠ n → sub t sb → raddr sb = n →
       addrs (prune n t) = filter (λ a, a ∉ addrs sb) (addrs t).
Proof.
  induction t as [a v cs IH] using rtree_ind'. intros Hnd Hne Hsub Hsb.
  apply sub_down in Hsub as [->|(c0 & Hc0 & Hsub0)]; [done|].
  simpl in Hc0. apply NoDup_kids in Hnd as [Ha Hnd].
  pose proof (sub_addrs _ _ Hsub0) as Hsb0.
  rewrite prune_unfold. simpl. rewrite filter_cons_True.
  2:{ intros Hin. apply Ha. eapply kid_addrs_subseteq; [exact Hc0|]. by apply Hsb0. }
  f_equal.
  pose proof (IH c0 Hc0) as IH0. clear IH.
  apply list_elem_of_split in Hc0 as (l1 & l2 & ->).
  rewrite addrsF_app, addrsF_cons_Some in Hnd.
  apply NoDup_app in Hnd as (_ & Hdisj1 & Hnd).
  apply NoDup_app in Hnd as (Hnd0 & Hdisj2 & _).
  assert (n ∈ addrs c0) as Hn0.
  { apply Hsb0. rewrite <- Hsb. apply raddr_in_addrs. }
  assert (∀ x, x ∈ addrsF l1 → x ∉ addrs c0) as Hd1.
  { intros x Hx Hx0. apply (Hdisj1 x Hx). apply elem_of_app. by left. }
  assert (∀ x, x ∈ addrsF l2 → x ∉ addrs c0) as Hd2.
  { intros x Hx Hx0. by apply (Hdisj2 x Hx0). }
  change (?l ≫= from_option addrs []) with (addrsF l).
  rewrite fmap_app, fmap_cons, !addrsF_app, !filter_app.
  rewrite (prune_slots_id n l1) by (intros Hx; by eapply Hd1).
  rewrite (prune_slots_id n l2) by (intros Hx; by eapply Hd2).
  rewrite (filter_all _ (addrsF l1)) by (intros x Hx Hxs; by eapply Hd1; [|apply Hsb0]).
  f_equal. rewrite addrsF_cons_Some, filter_app.
  rewrite (filter_all _ (addrsF l2)) by (intros x Hx Hxs; by eapply Hd2; [|apply Hsb0]).
  unfold prune_slot. destruct (decide (raddr c0 = n)) as [Heq|Hne0].
  - rewrite addrsF_cons_None.
    assert (sb = c0) as -> by (apply sub_same_root; congruence).
    rewrite (filter_none (λ a, a ∉ addrs c0) (addrs c0)); [done|].
    intros x Hx Hnx. by apply Hnx.
  - rewrite addrsF_cons_Some. f_equal. by apply IH0.
Qed.

(** ** The shape left by a compaction *)

Lemma compressT_unfold a v cs :
  compressT (RNode a v cs) = RNode a v (cs ≫= compress_slot).
Proof. reflexivity. Qed.

Lemma raddr_compressT t : raddr (compressT t) = raddr t.
Proof. by destruct t. Qed.

Lemma compressT_ptrs cs :
  slot_ptr <$> (cs ≫= compress_slot) = filter is_Some (slot_ptr <$> cs).
Proof.
  induction cs as [|[c|] cs IH]; [done|..]; simpl.
  - rewrite filter_cons_True by done. rewrite raddr_compressT. by f_equal.
  - rewrite filter_cons_False by (by intros [? ?]). done.
Qed.

Lemma compressT_cells :
  ∀ t p a nd,
    (a, nd) ∈ cells p (compressT t) →
    ∃ nd0, (a, nd0) ∈ cells p t ∧ nd = squash nd0.
Proof.
  induction t as [r v cs IH] using rtree_ind'. intros p a nd Hin.
  rewrite compressT_unfold in Hin. simpl in Hin.
  apply elem_of_cons in Hin as [Heq|Hin].
  - injection Heq as -> ->. eexists. split; [left|].
    unfold squash, set_children. simpl. by rewrite compressT_ptrs.
  - apply list_elem_of_bind in Hin as (slot & Hin & Hslot).
    apply list_elem_of_bind in Hslot as ([c|] & Hslot & Hc); simpl in Hslot;
      [|by apply elem_of_nil in Hslot].
    apply list_elem_of_singleton in Hslot as ->. simpl in Hin.
    destruct (IH c Hc _ _ _ Hin) as (nd0 & Hnd0 & ->).
    exists nd0. split; [|done]. simpl. right.
    apply list_elem_of_bind. by exists (Some c).
Qed.

Lemma compressT_addrs : ∀ t, addrs (compressT t) = addrs t.
Proof.
  induction t as [a v cs IH] using rtree_ind'.
  rewrite compressT_unfold. simpl. f_equal.
  induction cs as [|[c|] cs IHcs]; [done|..]; simpl.
  - rewrite IH by left. f_equal. apply IHcs. intros c' Hc'. apply IH. by right.
  - apply IHcs. intros c' Hc'. apply IH. by right.
Qed.

(** ** The shape left by [addChild] *)

Lemma graft_unfold n c x a v cs :
  graft n c x (RNode a v cs)
  = RNode a v (if decide (a = n)
               then (fmap (M := option) (graft n c x) <$> cs) ++ [Some (RNode c x [])]
               else fmap (M := option) (graft n c x) <$> cs).
Proof. reflexivity. Qed.

Lemma raddr_graft n c x t : raddr (graft n c x t) = raddr t.
Proof. by destruct t. Qed.

Lemma graft_ptrs n c x (cs : list (option (rtree T))) :
  slot_ptr <$> (fmap (M := option) (graft n c x) <$> cs) = slot_ptr <$> cs.
Proof.
  rewrite <- list_fmap_compose. apply list_fmap_ext.
  intros _ [k|] _; simpl; [|done]. by rewrite raddr_graft.
Qed.

Lemma graft_cells n c x :
  ∀ t p a nd,
    (a, nd) ∈ cells p (graft n c x t) →
    (a = c ∧ nd = leaf (Some n) x)
    ∨ ∃ nd0, (a, nd0) ∈ cells p t
             ∧ nd = if decide (a = n)
                    then set_children (childrenPtrs nd0 ++ [Some c]) nd0
                    else nd0.
Proof.
  induction t as [r v cs IH] using rtree_ind'. intros p a nd Hin.
  rewrite graft_unfold in Hin.
  assert (∀ a nd,
    (a, nd) ∈ (fmap (M := option) (graft n c x) <$> cs)
                ≫= from_option (cells (Some r)) [] →
    (a = c ∧ nd = leaf (Some n) x)
    ∨ ∃ nd0, (a, nd0) ∈ cs ≫= from_option (cells (Some r)) []
             ∧ nd = if decide (a = n)
                    then set_children (childrenPtrs nd0 ++ [Some c]) nd0
                    else nd0) as Hkids.
  { intros a' nd' Hin'.
    apply list_elem_of_bind in Hin' as (slot & Hin' & Hslot).
    apply list_elem_of_fmap in Hslot as ([k|] & -> & Hk); simpl in Hin';
      [|by apply elem_of_nil in Hin'].
    destruct (IH k Hk _ _ _ Hin') as [?|(nd0 & Hnd0 & ->)]; [by left|].
    right. exists nd0. split; [|done].
    apply list_elem_of_bind. by exists (Some k). }
  destruct (decide (r = n)) as [->|Hne]; simpl in Hin.
  - apply elem_of_cons in Hin as [Heq|Hin].
    + injection Heq as -> ->. right. eexists. split; [left|].
      rewrite decide_True by done. unfold set_children. simpl.
      by rewrite fmap_app, graft_ptrs.
    + rewrite bind_app in Hin. apply elem_of_app in Hin as [Hin|Hin].
      * destruct (Hkids _ _ Hin) as [?|(nd0 & Hnd0 & ->)]; [by left|].
        right. exists nd0. split; [by right | done].
      * simpl in Hin. apply list_elem_of_singleton in Hin.
        injection Hin as -> ->. by left.
  - apply elem_of_cons in Hin as [Heq|Hin].
    + injection Heq as -> ->. right. eexists. split; [left|].
      rewrite decide_False by done. by rewrite graft_ptrs.
    + destruct (Hkids _ _ Hin) as [?|(nd0 & Hnd0 & ->)]; [by left|].
      right. exists nd0. split; [by right | done].
Qed.

Lemma graft_addrs n c x :
  ∀ t, NoDup (addrs t) →
       addrs (graft n c x t)
       ≡ₚ if decide (n ∈ addrs t) then c :: addrs t else addrs t.
Proof.
  induction t as [a v cs IH] using rtree_ind'. intros Hnd.
  apply NoDup_kids in Hnd as [Ha Hnd].
  assert (addrsF (fmap (M := option) (graft n c x) <$> cs)
          ≡ₚ if decide (n ∈ addrsF cs) then c :: addrsF cs else addrsF cs)
    as Hkids.
  { clear Ha. induction cs as [|[k|] cs IHcs].
    - destruct (decide (n ∈ addrsF [])) as [Hin|_]; [|done].
      by apply elem_of_nil in Hin.
    - rewrite fmap_cons. simpl fmap at 1.
      rewrite !addrsF_cons_Some in *.
      apply NoDup_app in Hnd as (Hndk & Hdisj & Hndcs).
      rewrite (IH k) by (done || left).
      rewrite IHcs; [|intros k' Hk'; apply IH; by right|done].
      destruct (decide (n ∈ addrs k)) as [Hk|Hk];
        destruct (decide (n ∈ addrsF cs)) as [Hcs|Hcs].
      + by destruct (Hdisj n).
      + rewrite decide_True by (apply elem_of_app; by left). done.
      + rewrite decide_True by (apply elem_of_app; by right).
        by rewrite <- Permutation_middle.
      + rewrite decide_False; [done|].
        by intros [?|?]%elem_of_app.
    - rewrite fmap_cons. simpl fmap at 1. rewrite !addrsF_cons_None in *.
      apply IHcs; [|done]. intros k' Hk'. apply IH. by right. }
  rewrite graft_unfold. simpl.
  change (?l ≫= from_option addrs []) with (addrsF l).
  destruct (decide (a = n)) as [->|Hne].
  - rewrite decide_True by left.
    rewrite addrsF_app, Hkids, decide_False by done.
    unfold addrsF at 2. simpl.
    rewrite <- Permutation_cons_append. apply perm_swap.
  - destruct (decide (n ∈ addrsF cs)) as [Hin|Hnin].
    + rewrite decide_True by (by right). rewrite Hkids. apply perm_swap.
    + rewrite decide_False; [by rewrite Hkids|].
      intros [?|?]%elem_of_cons; congruence.
Qed.

(** ** Every call of the interface keeps the heap tree-shaped *)

Variable alloc : gmap addr (TreeNode T) → addr.
Hypothesis alloc_fresh : ∀ h, h !! alloc h = None.

Lemma walkBack_allocated fuel (h : gmap addr (TreeNode T)) n r :
  walkBack fuel h n = Ok r → is_Some (h !! n).
Proof.
  destruct fuel; simpl; unfold load; destruct (h !! n); simpl; by eauto.
Qed.

Lemma exact_createRoot (s : state T) ot v p s' :
  exact s ot → createRoot alloc v s = Ok (p, s') →
  exact s' (Some (RNode p v [])).
Proof.
  intros [Hown Hdom] Hrun. unfold createRoot in Hrun.
  destruct ot as [t|]; simpl in Hown.
  { destruct Hown as (Hroot & _). by rewrite Hroot in Hrun. }
  rewrite Hown in Hrun. injection Hrun as <- <-. simpl in Hdom.
  assert (∀ a, heap (mem s) !! a = None) as Hempty.
  { intros a. apply eq_None_not_Some. intros Hsome.
    apply Hdom in Hsome. by apply elem_of_nil in Hsome. }
  split; [split_and!|]; simpl.
  - done.
  - intros a n Hin. simpl in Hin. apply list_elem_of_singleton in Hin.
    injection Hin as -> ->. apply lookup_insert_eq.
  - apply NoDup_singleton.
  - intros a. rewrite list_elem_of_singleton.
    destruct (decide (a = alloc (heap (mem s)))) as [->|Hne].
    + rewrite lookup_insert_eq. split; [done | by eauto].
    + rewrite lookup_insert_ne, Hempty by done. split; [by intros [? ?] | done].
Qed.

Lemma exact_addChild (s : state T) ot n v c w :
  exact s ot → addChild alloc n v (mem s) = Ok (c, w) →
  ∃ t, ot = Some t ∧ n ∈ addrs t
       ∧ exact {| self := self s; mem := w |} (Some (graft n c v t)).
Proof.
  intros [Hown Hdom] Hrun. unfold addChild, load in Hrun.
  destruct (heap (mem s) !! n) as [me|] eqn:Hme; simpl in Hrun; [|done].
  injection Hrun as <- <-.
  assert (n ∈ from_option addrs [] ot) as Hn by (apply Hdom; eauto).
  destruct ot as [t|]; [|by apply elem_of_nil in Hn].
  simpl in Hn, Hdom. destruct Hown as (Hroot & Hr & Hnd).
  set (h := heap (mem s)) in *. set (c := alloc h).
  pose proof (alloc_fresh h) as Hc. fold c in Hc.
  assert (c ∉ addrs t) as Hct.
  { intros Hin. apply Hdom in Hin as [? Hin]. congruence. }
  assert (c ≠ n) as Hcn by (intros ->; congruence).
  exists t. split_and!; [done|done|].
  split; [split_and!|]; simpl.
  - by rewrite raddr_graft.
  - intros a nd Hin.
    apply graft_cells in Hin as [[-> ->]|(nd0 & Hnd0 & ->)].
    + rewrite lookup_insert_ne by done. apply lookup_insert_eq.
    + pose proof (Hr _ _ Hnd0) as Ha. fold h in Ha.
      destruct (decide (a = n)) as [->|Hne].
      * rewrite lookup_insert_eq. congruence.
      * rewrite !lookup_insert_ne; [done|congruence|done].
  - rewrite graft_addrs, decide_True by done. by apply NoDup_cons.
  - intros a. rewrite graft_addrs, decide_True by done.
    rewrite elem_of_cons, <- Hdom.
    destruct (decide (a = n)) as [->|Hne].
    + rewrite lookup_insert_eq. split; [right|]; eauto.
    + rewrite lookup_insert_ne by done.
      destruct (decide (a = c)) as [->|Hne'].
      * rewrite lookup_insert_eq. split; [by left | by eauto].
      * rewrite lookup_insert_ne by done. split; [by right | by intros [?|?]].
Qed.

Lemma exact_deleteSubtree (s : state T) ot fuel target s' :
  exact s ot → deleteSubtree show fuel target s = Ok s' →
  ∃ ot', exact s' ot'.
Proof.
  intros Hex Hrun. destruct target as [n|]; [|injection Hrun as <-; eauto].
  destruct Hex as [Hown Hdom].
  assert (n ∈ from_option addrs [] ot) as Hn.
  { apply Hdom. unfold deleteSubtree in Hrun.
    destruct (walkBack fuel (heap (mem s)) n) eqn:Hwalk; simpl in Hrun; try done.
    by eapply walkBack_allocated. }
  destruct ot as [t|]; [|by apply elem_of_nil in Hn]. simpl in Hn, Hdom.
  apply (deleteSubtree_mono _ (fuel `max` slots t)) in Hrun; [|lia].
  destruct (deleteSubtree_owned s t n (fuel `max` slots t) Hown Hn)
    as (sb & L & w1 & err & w' & Hsb & Hsbn & HL & _ & _ & _ & _ & _ & Hdel
        & Hheap & _); [lia|].
  rewrite Hdel in Hrun. injection Hrun as <-.
  destruct Hown as (Hroot & Hr & Hnd).
  destruct (decide (n = raddr t)) as [->|Hne].
  - assert (sb = t) as -> by (by apply sub_same_root).
    exists None. split; [done|]. simpl. intros a. rewrite Hheap.
    destruct (decide (a ∈ addrs t)) as [Hin|Hnin].
    + split; [by intros [? ?] | by intros ?%elem_of_nil].
    + rewrite Hdom. split; [done | by intros ?%elem_of_nil].
  - pose proof (prune_addrs n sb t Hnd (not_eq_sym Hne) Hsb Hsbn) as Haddrs.
    exists (Some (prune n t)). split; [split_and!|]; simpl.
    + by rewrite raddr_prune.
    + intros a nd Hin.
      assert (a ∈ addrs (prune n t)) as Ha.
      { rewrite <- (cells_addrs None). apply list_elem_of_fmap. by exists (a, nd). }
      rewrite Haddrs in Ha. apply list_elem_of_filter in Ha as [Hout Hat].
      apply prune_cells in Hin as (nd0 & Hnd0 & ->).
      rewrite Hheap, decide_False, decide_True by done.
      by rewrite (Hr _ _ Hnd0).
    + rewrite Haddrs. by apply NoDup_filter.
    + intros a. rewrite Hheap, Haddrs, list_elem_of_filter.
      destruct (decide (a ∈ addrs sb)) as [Hin|Hout].
      * split; [by intros [? ?] | by intros [? _]].
      * destruct (decide (a ∈ addrs t)) as [Hat|Hnat].
        -- apply Hdom in Hat as Hsome. destruct Hsome as [nd ->]. simpl.
           split; [done | by eauto].
        -- rewrite Hdom. split; [done | by intros [_ ?]].
Qed.

Lemma exact_compress (s : state T) ot fuel s' :
  exact s ot → compress fuel s = Ok s' → exact s' (compressT <$> ot).
Proof.
  intros [Hown Hdom] Hrun. destruct ot as [t|]; simpl in *.
  2:{ unfold compress in Hrun. rewrite Hown in Hrun. injection Hrun as <-.
      by split. }
  apply (compress_mono _ (fuel `max` slots t)) in Hrun; [|lia].
  destruct (compress_owned s t (fuel `max` slots t) Hown)
    as (w' & Hcmp & Hheap & _); [lia|].
  rewrite Hcmp in Hrun. injection Hrun as <-.
  destruct Hown as (Hroot & Hr & Hnd).
  split; [split_and!|]; simpl.
  - by rewrite raddr_compressT.
  - intros a nd Hin.
    assert (a ∈ addrs t) as Ha.
    { rewrite <- compressT_addrs, <- (cells_addrs None).
      apply list_elem_of_fmap. by exists (a, nd). }
    apply compressT_cells in Hin as (nd0 & Hnd0 & ->).
    by rewrite Hheap, decide_True, (Hr _ _ Hnd0).
  - by rewrite compressT_addrs.
  - intros a. rewrite Hheap, compressT_addrs.
    destruct (decide (a ∈ addrs t)) as [Hin|Hnin]; [|by rewrite Hdom].
    apply Hdom in Hin as Hsome. destruct Hsome as [nd ->]. simpl.
    split; [done | by eauto].
Qed.

Lemma exact_clear (s : state T) ot fuel s' :
  exact s ot → clear show fuel s = Ok s' → ∃ ot', exact s' ot'.
Proof.
  intros Hex Hrun. unfold clear in Hrun.
  destruct (deleteSubtree show fuel _ s) as [s1| | |] eqn:Hdel;
    simpl in Hrun; try done.
  destruct (rootNodePtr (self s1)); [done|]. injection Hrun as <-.
  by eapply exact_deleteSubtree.
Qed.

(** *** Calls that throw *)

Lemma walkBack_no_throw h : ∀ fuel n e s', walkBack fuel h n ≠ Throw e s'.
Proof.
  induction fuel as [|fuel IH]; intros n e s'; simpl; unfold load;
    destruct (h !! n) as [nd|]; simpl; try done;
    destruct (parentPtr nd); try done; apply IH.
Qed.

Lemma node_line_no_throw h c e s' : node_line show h c ≠ Throw e s'.
Proof.
  destruct c as [a|]; simpl; [|done]. unfold load. by destruct (h !! a).
Qed.

Lemma explore_no_throw dbg h :
  ∀ fuel st del err e s', explore show fuel dbg h st del err ≠ Throw e s'.
Proof.
  induction fuel as [|fuel IH]; intros [|c st] del err e s'; simpl; try done.
  destruct dbg; simpl.
  - destruct (node_line show h c) as [line|e0 s0| |] eqn:Hline; simpl;
      try done; [|by apply node_line_no_throw in Hline].
    destruct c as [a|]; [|apply IH].
    unfold load. destruct (h !! a); simpl; [apply IH | done].
  - destruct c as [a|]; [|apply IH].
    unfold load. destruct (h !! a); simpl; [apply IH | done].
Qed.

Lemma release_no_throw dbg :
  ∀ dl (w : world T) e s', release show dbg dl w ≠ Throw e s'.
Proof.
  induction dl as [|c dl IH]; intros w e s'; simpl; [done|].
  destruct dbg; simpl.
  - destruct (node_line show (heap w) c) as [line|e0 s0| |] eqn:Hline; simpl;
      try done; [|by apply node_line_no_throw in Hline].
    destruct c as [a|]; simpl; [|apply IH].
    unfold load. destruct (heap w !! a); simpl; [apply IH | done].
  - destruct c as [a|]; simpl; [|apply IH].
    unfold load. destruct (heap w !! a); simpl; [apply IH | done].
Qed.

(** A call of [deleteSubtree] that throws has written nothing but a
    message. *)
Lemma deleteSubtree_throw_frame fuel target (s : state T) e s' :
  deleteSubtree show fuel target s = Throw e s' →
  self s' = self s ∧ heap (mem s') = heap (mem s)
  ∧ released (mem s') = released (mem s).
Proof.
  destruct target as [n|]; [|done]. unfold deleteSubtree.
  pose proof (walkBack_no_throw (heap (mem s)) fuel n) as Hwalk.
  destruct (walkBack fuel (heap (mem s)) n) as [walk|e0 s0| |]; simpl;
    try done; [|by destruct (Hwalk e0 s0)].
  destruct (decide (Some walk ≠ rootNodePtr (self s))); [by intros [= _ <-]|].
  destruct (detach_from_parent n s) as [w1|e1 s1| |] eqn:Hdet; simpl; try done.
  - pose proof (explore_no_throw (showDebugMessages (self s)) (heap w1) fuel
                  [Some n] [] (cerr w1)) as Hexp.
    destruct (explore show fuel _ _ _ _ _) as [[dl err]|e2 s2| |]; simpl;
      try done; [|by destruct (Hexp e2 s2)].
    pose proof (release_no_throw (showDebugMessages (self s)) dl
                  {| heap := heap w1; cerr := err; released := released w1 |})
      as Hrel.
    destruct (release show _ dl _) as [w2|e3 s3| |]; simpl; try done.
    by destruct (Hrel e3 s3).
  - intros [= _ <-]. unfold detach_from_parent, load in Hdet.
    destruct (heap (mem s) !! n) as [tn|]; simpl in Hdet; [|done].
    destruct (parentPtr tn) as [p|]; [|done].
    destruct (heap (mem s) !! p) as [pn|]; simpl in Hdet; [|done].
    destruct (detach n (childrenPtrs pn)) as [cs [|]]; [done|].
    by injection Hdet as _ <-.
Qed.

Lemma exact_same (s s' : state T) ot :
  rootNodePtr (self s') = rootNodePtr (self s) →
  heap (mem s') = heap (mem s) → exact s ot → exact s' ot.
Proof.
  intros Hroot Hheap [Hown Hdom]. split.
  - destruct ot as [t|]; simpl in *; rewrite Hroot, ?Hheap; done.
  - intros a. rewrite Hheap. apply Hdom.
Qed.

Lemma exact_caught (s : state T) ot s' :
  exact s ot →
  (∃ v e, createRoot alloc v s = Throw e s')
  ∨ (∃ fuel target e, deleteSubtree show fuel target s = Throw e s')
  ∨ (∃ fuel e, compress fuel s = Throw e s')
  ∨ (∃ fuel e, clear show fuel s = Throw e s') →
  ∃ ot', exact s' ot'.
Proof.
  intros Hex [(v & e & Hrun)|[(fuel & target & e & Hrun)
              |[(fuel & e & Hrun)|(fuel & e & Hrun)]]].
  - exists ot. unfold createRoot in Hrun.
    destruct (rootNodePtr (self s)); [|done]. injection Hrun as _ <-.
    by eapply exact_same.
  - exists ot. apply deleteSubtree_throw_frame in Hrun as (Hself & Hheap & _).
    eapply exact_same; [by rewrite Hself|done|done].
  - by apply compress_no_throw in Hrun.
  - unfold clear in Hrun.
    destruct (deleteSubtree show fuel _ s) as [s1|e1 s1| |] eqn:Hdel;
      simpl in Hrun; try done.
    + destruct (rootNodePtr (self s1)); [|done]. injection Hrun as _ <-.
      by eapply exact_deleteSubtree.
    + injection Hrun as _ <-. exists ot.
      apply deleteSubtree_throw_frame in Hdel as (Hself & Hheap & _).
      eapply exact_same; [by rewrite Hself|done|done].
Qed.

(** A program that only goes through the interface holds, at every point,
    either nothing or a tree-shaped heap that is its tree exactly. *)
Lemma api_reachable_exact (s : state T) :
  api_reachable show alloc s → ∃ ot, exact s ot.
Proof.
  induction 1 as [|s s' _ [ot Hex] Hstep].
  - exists None. split; [done|]. intros a. simpl. rewrite lookup_empty.
    split; [by intros [? ?] | by intros ?%elem_of_nil].
  - destruct Hstep as [v s p s' Hrun|n v s c w Hrun|fuel target s s' Hrun
                       |fuel s s' Hrun|fuel s s' Hrun|b s
                       |v s e s' Hrun|fuel target s e s' Hrun
                       |fuel s e s' Hrun|fuel s e s' Hrun].
    + eexists. by eapply exact_createRoot.
    + destruct (exact_addChild _ _ _ _ _ _ Hex Hrun) as (t & _ & _ & Hex').
      by eexists.
    + by eapply exact_deleteSubtree.
    + eexists. by eapply exact_compress.
    + by eapply exact_clear.
    + exists ot. destruct Hex as [Hown Hdom]. split; [|done].
      by destruct ot.
    + eapply exact_caught; [done|]. left. by eauto.
    + eapply exact_caught; [done|]. right. left. by eauto.
    + eapply exact_caught; [done|]. do 2 right. left. by eauto.
    + eapply exact_caught; [done|]. do 3 right. by eauto.
Qed.

(** ** Compaction of a heap that is exactly one tree *)

Lemma squash_squash (nd : TreeNode T) : squash (squash nd) = squash nd.
Proof.
  destruct nd as [p l v]. unfold squash, set_children. simpl. f_equal.
  induction l as [|[c|] l IH]; [done|..].
  - rewrite !filter_cons_True by done. by f_equal.
  - by rewrite !filter_cons_False by (by intros [? ?]).
Qed.

Lemma squash_no_null (nd : TreeNode T) : None ∉ childrenPtrs (squash nd).
Proof. simpl. intros [[? ?] _]%list_elem_of_filter. done. Qed.

Lemma compress_exact (s : state T) ot fuel :
  exact s ot → from_option slots 0 ot ≤ fuel →
  ∃ w',
    compress fuel s = Ok {| self := self s; mem := w' |}
    ∧ heap w' = squash <$> heap (mem s)
    ∧ cerr w' = cerr (mem s) ∧ released w' = released (mem s).
Proof.
  intros [Hown Hdom] Hfuel. destruct ot as [t|]; simpl in *.
  - destruct (compress_owned s t fuel Hown Hfuel) as (w' & Hrun & Hheap & ? & ?).
    exists w'. split_and!; try done.
    apply map_eq. intros a. rewrite Hheap, lookup_fmap.
    destruct (decide (a ∈ addrs t)) as [Hin|Hnin]; [done|].
    destruct (heap (mem s) !! a) eqn:Ha; [|done].
    destruct Hnin. apply Hdom. by eauto.
  - exists (mem s). unfold compress. rewrite Hown. destruct s as [this w].
    split_and!; try done. simpl in *. apply map_eq. intros a.
    rewrite lookup_fmap.
    destruct (heap w !! a) eqn:Ha; [|done].
    assert (a ∈ []) as Hin by (apply Hdom; eauto). by apply elem_of_nil in Hin.
Qed.

Lemma sub_proper_root t sb :
  NoDup (addrs t) → sub t sb → raddr sb ≠ raddr t → raddr t ∉ addrs sb.
Proof.
  intros Hnd Hsb Hne Hin.
  apply sub_down in Hsb as [->|(c & Hc & Hsb)]; [done|].
  destruct t as [a v cs]. apply NoDup_kids in Hnd as [Ha _]. apply Ha.
  eapply kid_addrs_subseteq; [exact Hc|]. by eapply sub_addrs.
Qed.

(** * The claims *)

(** C1. For a node [n] of an owned tree [t], [deleteSubtree] returns
    normally, and in the heap it leaves: every node reachable from [n]
    along child pointers ([n] included) is gone; every other node of the
    tree is still there with its value and its parent, and its children
    sequence is the old one, position by position, except that the slot
    that held [n] now holds a null pointer (the tombstone); every cell
    outside the tree is untouched. *)
Theorem deleteSubtree_removes_exactly_the_subtree
    (s : state T) (t : rtree T) (n : addr) (fuel : nat) :
  owns s (Some t) → n ∈ addrs t → slots t ≤ fuel →
  ∃ s',
    deleteSubtree show fuel (Some n) s = Ok s'
    ∧ (∀ a, reach (heap (mem s)) n a → a ∈ addrs t)
    ∧ (∀ a, reach (heap (mem s)) n a → heap (mem s') !! a = None)
    ∧ (∀ a, ¬ reach (heap (mem s)) n a → a ∈ addrs t →
         heap (mem s') !! a = tombstone n <$> heap (mem s) !! a)
    ∧ (∀ a, a ∉ addrs t → heap (mem s') !! a = heap (mem s) !! a).
Proof.
  intros Hown Hn Hfuel.
  destruct (deleteSubtree_owned s t n fuel Hown Hn Hfuel)
    as (sb & L & w1 & err & w' & Hsb & Hsbn & HL & _ & _ & _ & _ & _ & Hdel
        & Hheap & _).
  destruct Hown as (Hroot & Hr & Hnd).
  destruct (sub_repr _ _ _ _ Hr Hsb) as [q Hq].
  assert (∀ a, reach (heap (mem s)) n a ↔ a ∈ addrs sb) as Hreach.
  { intros a. rewrite <- Hsbn. by eapply reach_addrs. }
  eexists. split; [exact Hdel|]. simpl. split_and!.
  - intros a Ha. eapply sub_addrs; [exact Hsb|]. by apply Hreach.
  - intros a Ha. rewrite Hheap, decide_True; [done|]. by apply Hreach.
  - intros a Ha Hat. rewrite Hheap, decide_False, decide_True; [done|done|].
    by rewrite <- Hreach.
  - intros a Hat. rewrite Hheap, decide_False, decide_False; [done|done|].
    intros Hin. apply Hat. by eapply sub_addrs.
Qed.

(** C2. Two trees with different root pointers live in the same free
    store, and [n] is a node of tree [B].  Then the walk along the parent
    pointers from [n] ends at the root of [B], which is not the root of
    [A]; [deleteSubtree] called on [A] with target [n] throws the
    cross-tree error, and the state carried by the exception is the state
    before the call: object [A] and the whole free store, the nodes of [B]
    included, are as they were. *)
Theorem deleteSubtree_cross_tree
    (A B : GenericTree) (w : world T) (tB : rtree T) (n : addr) (fuel : nat) :
  owns {| self := B; mem := w |} (Some tB) → n ∈ addrs tB →
  rootNodePtr A ≠ rootNodePtr B → slots tB ≤ fuel →
  walkBack fuel (heap w) n = Ok (raddr tB)
  ∧ rootNodePtr A ≠ Some (raddr tB)
  ∧ deleteSubtree show fuel (Some n) {| self := A; mem := w |}
    = Throw ERR_CROSS_TREE {| self := A; mem := w |}.
Proof.
  intros (Hroot & Hr & _) Hn Hdiff Hfuel. simpl in *.
  pose proof (walkBack_owned _ _ _ _ Hr Hn Hfuel) as Hwalk.
  split_and!; [done|congruence|].
  unfold deleteSubtree. simpl. rewrite Hwalk. simpl.
  rewrite decide_True; [done|]. congruence.
Qed.

(** C3. For a non-empty owned tree [t], [clear] (and so the destructor)
    goes through two phases.  The explore loop, run on the heap as it is
    before anything is released, ends with a delete stack [L] that holds
    every node of the tree, that is every node reachable from the root,
    exactly once.  The delete loop then releases exactly the entries of
    [L], each one once: the log of [delete] calls grows by [L], the nodes
    of [L] are gone from the heap and no other cell changes.  The call
    returns normally and the root pointer is null afterwards. *)
Theorem clear_releases_every_node_once
    (s : state T) (t : rtree T) (fuel : nat) :
  owns s (Some t) → slots t ≤ fuel →
  ∃ L err s',
    explore show fuel (showDebugMessages (self s)) (heap (mem s))
      [rootNodePtr (self s)] [] (cerr (mem s)) = Ok (Some <$> L, err)
    ∧ NoDup L
    ∧ (∀ a, a ∈ L ↔ reach (heap (mem s)) (raddr t) a)
    ∧ release show (showDebugMessages (self s)) (Some <$> L)
        {| heap := heap (mem s); cerr := err; released := released (mem s) |}
      = Ok (mem s')
    ∧ clear show fuel s = Ok s'
    ∧ destroy show fuel s = Ok s'
    ∧ released (mem s') = released (mem s) ++ L
    ∧ (∀ a, heap (mem s') !! a
            = if decide (a ∈ L) then None else heap (mem s) !! a)
    ∧ getRootPtr (self s') = None.
Proof.
  intros Hown Hfuel.
  destruct (deleteSubtree_owned s t (raddr t) fuel Hown (raddr_in_addrs t) Hfuel)
    as (sb & L & w1 & err & w' & Hsb & Hsbn & HL & Hdet & _ & _ & Hexp & Hrel
        & Hdel & Hheap & Hlog & _).
  destruct Hown as (Hroot & Hr & Hnd).
  assert (sb = t) as -> by (by apply sub_same_root).
  assert (w1 = mem s) as ->.
  { unfold detach_from_parent, load in Hdet.
    rewrite (repr_root _ _ _ Hr) in Hdet. simpl in Hdet. congruence. }
  rewrite decide_True in Hdel by done.
  assert (clear show fuel s = Ok {| self := set_root None (self s); mem := w' |})
    as Hclear.
  { unfold clear. rewrite Hroot, Hdel. done. }
  exists L, err, {| self := set_root None (self s); mem := w' |}.
  rewrite Hroot. simpl. split_and!; try done.
  - by rewrite HL.
  - intros a. rewrite HL. symmetry. by eapply reach_addrs.
  - intros a. rewrite Hheap.
    rewrite (decide_ext (a ∈ L) (a ∈ addrs t)) by (by rewrite HL).
    destruct (decide (a ∈ addrs t)); [done|]. done.
Qed.

(** C4. In any state reached through the interface, [compress] returns
    normally whatever fuel above a bound it is given, and the heap it
    leaves is the old heap with every node squashed in place: no cell is
    released or added, each node keeps its address, its value and its
    parent pointer, and its children sequence is the old one with the null
    entries taken out and the others in their old order.  In particular no
    children sequence holds a null pointer afterwards. *)
Theorem compress_sweeps_tombstones (s : state T) :
  api_reachable show alloc s →
  ∃ k, ∀ fuel, k ≤ fuel →
    ∃ s',
      compress fuel s = Ok s'
      ∧ self s' = self s
      ∧ heap (mem s') = squash <$> heap (mem s)
      ∧ (∀ a nd, heap (mem s') !! a = Some nd → None ∉ childrenPtrs nd)
      ∧ (∀ a nd, heap (mem s) !! a = Some nd →
           ∃ nd', heap (mem s') !! a = Some nd'
                  ∧ data nd' = data nd ∧ parentPtr nd' = parentPtr nd
                  ∧ childrenPtrs nd' = filter is_Some (childrenPtrs nd)).
Proof.
  intros Hreach. destruct (api_reachable_exact _ Hreach) as [ot Hex].
  exists (from_option slots 0 ot). intros fuel Hfuel.
  destruct (compress_exact s ot fuel Hex Hfuel) as (w' & Hrun & Hheap & _).
  eexists. split; [exact Hrun|]. simpl. split_and!; [done|done| |].
  - intros a nd. rewrite Hheap, lookup_fmap.
    destruct (heap (mem s) !! a); simpl; [|done].
    intros [= <-]. apply squash_no_null.
  - intros a nd Ha. exists (squash nd). split; [|done].
    by rewrite Hheap, lookup_fmap, Ha.
Qed.

(** C5. For a node [n] of an owned tree, [deleteSubtree] returns normally.
    When [n] is the root, [getRootPtr] is null afterwards.  When it is
    not, [getRootPtr] is the same pointer as before, and the node it
    points to is still allocated, with the value it had and no parent. *)
Theorem deleteSubtree_root_pointer
    (s : state T) (t : rtree T) (n : addr) (fuel : nat) :
  owns s (Some t) → n ∈ addrs t → slots t ≤ fuel →
  ∃ s',
    deleteSubtree show fuel (Some n) s = Ok s'
    ∧ (n = raddr t → getRootPtr (self s') = None)
    ∧ (n ≠ raddr t →
         getRootPtr (self s') = getRootPtr (self s)
         ∧ getRootPtr (self s') = Some (raddr t)
         ∧ ∃ nd, heap (mem s') !! raddr t = Some nd
                 ∧ data nd = rval t ∧ parentPtr nd = None).
Proof.
  intros Hown Hn Hfuel.
  destruct (deleteSubtree_owned s t n fuel Hown Hn Hfuel)
    as (sb & L & w1 & err & w' & Hsb & Hsbn & HL & _ & _ & _ & _ & _ & Hdel
        & Hheap & _).
  destruct Hown as (Hroot & Hr & Hnd).
  eexists. split; [exact Hdel|]. simpl. split.
  - intros ->. by rewrite decide_True.
  - intros Hne. rewrite decide_False by done. unfold getRootPtr.
    split_and!; [done|done|].
    rewrite Hheap, decide_False, decide_True, (repr_root _ _ _ Hr).
    + simpl. by eauto.
    + apply raddr_in_addrs.
    + apply sub_proper_root; [done|done|congruence].
Qed.

(** C6, as amended.  The walk along the parent pointers from the target
    ends at this tree's root, the target has a parent, and the parent's
    children sequence does not hold the target.  Then [deleteSubtree]
    throws the not-listed error after writing its message to [std::cerr];
    nothing has been detached or released: the heap, the release log and
    the tree object are as before the call. *)
Theorem deleteSubtree_unlisted_target
    (s : state T) (n p r : addr) (tn pn : TreeNode T) (fuel : nat) :
  walkBack fuel (heap (mem s)) n = Ok r → rootNodePtr (self s) = Some r →
  heap (mem s) !! n = Some tn → parentPtr tn = Some p →
  heap (mem s) !! p = Some pn → Some n ∉ childrenPtrs pn →
  ∃ s',
    deleteSubtree show fuel (Some n) s = Throw ERR_NOT_LISTED s'
    ∧ self s' = self s
    ∧ heap (mem s') = heap (mem s)
    ∧ released (mem s') = released (mem s)
    ∧ cerr (mem s') = cerr (mem s) +:+ ERR_NOT_LISTED +:+ endl.
Proof.
  intros Hwalk Hroot Htn Hp Hpn Hunlisted.
  eexists. split.
  - unfold deleteSubtree. rewrite Hwalk. simpl.
    rewrite decide_False by (rewrite Hroot; by intros []).
    unfold detach_from_parent, load. rewrite Htn. simpl. rewrite Hp, Hpn. simpl.
    rewrite (detach_not_listed _ _ Hunlisted). simpl. reflexivity.
  - done.
Qed.

(** C8. In any state reached through the interface, a second [compress]
    right after a first one returns the state the first one returned. *)
Theorem compress_idempotent (s : state T) :
  api_reachable show alloc s →
  ∃ k, ∀ fuel, k ≤ fuel →
    ∃ s1, compress fuel s = Ok s1 ∧ compress fuel s1 = Ok s1.
Proof.
  intros Hreach. destruct (api_reachable_exact _ Hreach) as [ot Hex].
  exists (from_option slots 0 ot `max` from_option slots 0 (compressT <$> ot)).
  intros fuel Hfuel.
  destruct (compress_exact s ot fuel Hex) as (w1 & Hrun1 & Hheap1 & Hc1 & Hr1);
    [lia|].
  pose proof (exact_compress _ _ _ _ Hex Hrun1) as Hex1.
  destruct (compress_exact _ _ fuel Hex1) as (w2 & Hrun2 & Hheap2 & Hc2 & Hr2);
    [lia|].
  eexists. split; [exact Hrun1|]. rewrite Hrun2. do 2 f_equal. simpl in *.
  destruct w1 as [h1 c1 r1], w2 as [h2 c2 r2]. simpl in *. subst.
  f_equal. rewrite <- map_fmap_compose. apply map_fmap_ext.
  intros a nd _. apply squash_squash.
Qed.

(** C10. [compress] never throws: its exploration queue only ever holds
    the non-null root and non-null children, so the branch that throws on
    a null front pointer is dead.  In any state reached through the
    interface the call moreover returns normally, whatever fuel above a
    bound it is given. *)
Theorem compress_never_throws (s : state T) :
  api_reachable show alloc s →
  (∀ fuel e s', compress fuel s ≠ Throw e s')
  ∧ ∃ k, ∀ fuel, k ≤ fuel → ∃ s', compress fuel s = Ok s'.
Proof.
  intros Hreach. split.
  - intros fuel e s'. apply compress_no_throw.
  - destruct (api_reachable_exact _ Hreach) as [ot Hex].
    exists (from_option slots 0 ot). intros fuel Hfuel.
    destruct (compress_exact s ot fuel Hex Hfuel) as (w' & Hrun & _).
    by eexists.
Qed.

End Facts.

(** * The claims on concrete trees *)

Lemma first_free_fresh {T} (h : gmap addr (TreeNode T)) :
  h !! first_free h = None.
Proof. apply not_elem_of_dom. unfold first_free. apply is_fresh. Qed.

Lemma scenario_reachable : api_reachable id first_free Demo.scenario.
Proof.
  assert (api_reachable id first_free Demo.only_A) as HA.
  { eapply api_call; [apply api_start|].
    exact (call_createRoot id first_free "A" Demo.start 1%positive Demo.only_A eq_refl). }
  assert (api_reachable id first_free Demo.with_B) as HB.
  { eapply api_call; [exact HA|].
    exact (call_addChild id first_free 1%positive "B" Demo.only_A 2%positive
             (mem Demo.with_B) eq_refl). }
  assert (api_reachable id first_free Demo.with_C) as HC.
  { eapply api_call; [exact HB|].
    exact (call_addChild id first_free 1%positive "C" Demo.with_B 3%positive
             (mem Demo.with_C) eq_refl). }
  assert (api_reachable id first_free Demo.with_D) as HD.
  { eapply api_call; [exact HC|].
    exact (call_addChild id first_free 1%positive "D" Demo.with_C 4%positive
             (mem Demo.with_D) eq_refl). }
  eapply api_call; [exact HD|].
  exact (call_addChild id first_free 2%positive "E" Demo.with_D 5%positive
           (mem Demo.scenario) eq_refl).
Qed.

Lemma without_B_reachable : api_reachable id first_free Demo.without_B.
Proof.
  eapply api_call; [apply scenario_reachable|].
  exact (call_deleteSubtree id first_free 10 (Some 2%positive) Demo.scenario
           Demo.without_B eq_refl).
Qed.

(** The scenario of the specification, end to end: after "B" is deleted
    and the tree compacted, "A" has the children "C" and "D", "B" and "E"
    have been released, and the diagram shows "C" above "D", both one
    level under "A". *)
Example scenario_end_to_end :
  ∃ s',
    compress 10 Demo.without_B = Ok s'
    ∧ map_to_list (heap (mem s'))
      ≡ₚ [(1%positive, mkNode None [Some 3%positive; Some 4%positive] "A");
          (3%positive, mkNode (Some 1%positive) [] "C");
          (4%positive, mkNode (Some 1%positive) [] "D")]
    ∧ released (mem s') = [5%positive; 2%positive]
    ∧ Print id 10 (self s') (heap (mem s')) "" ""
      = Ok ("A" +:+ endl +:+
            "|" +:+ endl +:+
            "|_ C" +:+ endl +:+
            "|" +:+ endl +:+
            "|_ D" +:+ endl, "").
Proof.
  eexists. split; [by vm_compute|]. split; [|by vm_compute].
  vm_compute. apply (bool_decide_unpack _). by vm_compute.
Qed.

(** The scenario after the deletion does hold a tombstone. *)
Lemma without_B_has_tombstone :
  childrenPtrs <$> heap (mem Demo.without_B) !! 1%positive
  = Some [None; Some 3%positive; Some 4%positive].
Proof. vm_compute. reflexivity. Qed.

Lemma deleteSubtree_removes_exactly_the_subtree_witness :
  ∃ s',
    deleteSubtree id 10 (Some 2%positive) Demo.scenario = Ok s'
    ∧ (∀ a, reach (heap (mem Demo.scenario)) 2%positive a →
         a ∈ addrs Demo.scenario_tree)
    ∧ (∀ a, reach (heap (mem Demo.scenario)) 2%positive a →
         heap (mem s') !! a = None)
    ∧ (∀ a, ¬ reach (heap (mem Demo.scenario)) 2%positive a →
         a ∈ addrs Demo.scenario_tree →
         heap (mem s') !! a
         = tombstone 2%positive <$> heap (mem Demo.scenario) !! a)
    ∧ (∀ a, a ∉ addrs Demo.scenario_tree →
         heap (mem s') !! a = heap (mem Demo.scenario) !! a).
Proof.
  apply (deleteSubtree_removes_exactly_the_subtree id Demo.scenario
           Demo.scenario_tree 2%positive 10); by_computation.
Defined.

Lemma deleteSubtree_cross_tree_witness :
  owns {| self := Demo.tree_B; mem := Demo.two_trees |} (Some Demo.other_tree)
  ∧ 7%positive ∈ addrs Demo.other_tree
  ∧ rootNodePtr Demo.tree_A ≠ rootNodePtr Demo.tree_B
  ∧ walkBack 10 (heap Demo.two_trees) 7%positive = Ok (raddr Demo.other_tree)
  ∧ rootNodePtr Demo.tree_A ≠ Some (raddr Demo.other_tree)
  ∧ deleteSubtree id 10 (Some 7%positive)
      {| self := Demo.tree_A; mem := Demo.two_trees |}
    = Throw ERR_CROSS_TREE {| self := Demo.tree_A; mem := Demo.two_trees |}.
Proof.
  split; [by_computation|]. split; [by_computation|]. split; [by_computation|].
  apply (deleteSubtree_cross_tree id Demo.tree_A Demo.tree_B Demo.two_trees
           Demo.other_tree 7%positive 10); by_computation.
Defined.

Lemma clear_releases_every_node_once_witness :
  ∃ L err s',
    explore id 10 (showDebugMessages (self Demo.scenario))
      (heap (mem Demo.scenario)) [rootNodePtr (self Demo.scenario)] []
      (cerr (mem Demo.scenario)) = Ok (Some <$> L, err)
    ∧ NoDup L
    ∧ (∀ a, a ∈ L ↔ reach (heap (mem Demo.scenario)) 1%positive a)
    ∧ release id (showDebugMessages (self Demo.scenario)) (Some <$> L)
        {| heap := heap (mem Demo.scenario); cerr := err;
           released := released (mem Demo.scenario) |}
      = Ok (mem s')
    ∧ clear id 10 Demo.scenario = Ok s'
    ∧ destroy id 10 Demo.scenario = Ok s'
    ∧ released (mem s') = released (mem Demo.scenario) ++ L
    ∧ (∀ a, heap (mem s') !! a
            = if decide (a ∈ L) then None else heap (mem Demo.scenario) !! a)
    ∧ getRootPtr (self s') = None.
Proof.
  apply (clear_releases_every_node_once id Demo.scenario Demo.scenario_tree 10);
    by_computation.
Defined.

Lemma compress_sweeps_tombstones_witness :
  ∃ k, ∀ fuel, k ≤ fuel →
    ∃ s',
      compress fuel Demo.without_B = Ok s'
      ∧ self s' = self Demo.without_B
      ∧ heap (mem s') = squash <$> heap (mem Demo.without_B)
      ∧ (∀ a nd, heap (mem s') !! a = Some nd → None ∉ childrenPtrs nd)
      ∧ (∀ a nd, heap (mem Demo.without_B) !! a = Some nd →
           ∃ nd', heap (mem s') !! a = Some nd'
                  ∧ data nd' = data nd ∧ parentPtr nd' = parentPtr nd
                  ∧ childrenPtrs nd' = filter is_Some (childrenPtrs nd)).
Proof.
  exact (compress_sweeps_tombstones id first_free first_free_fresh Demo.without_B
           without_B_reachable).
Defined.

Lemma deleteSubtree_root_pointer_witness :
  ∃ s',
    deleteSubtree id 10 (Some 2%positive) Demo.scenario = Ok s'
    ∧ (2%positive = raddr Demo.scenario_tree → getRootPtr (self s') = None)
    ∧ (2%positive ≠ raddr Demo.scenario_tree →
         getRootPtr (self s') = getRootPtr (self Demo.scenario)
         ∧ getRootPtr (self s') = Some (raddr Demo.scenario_tree)
         ∧ ∃ nd, heap (mem s') !! raddr Demo.scenario_tree = Some nd
                 ∧ data nd = rval Demo.scenario_tree ∧ parentPtr nd = None).
Proof.
  apply (deleteSubtree_root_pointer id Demo.scenario Demo.scenario_tree
           2%positive 10); by_computation.
Defined.

Lemma deleteSubtree_unlisted_target_witness :
  ∃ s',
    deleteSubtree id 10 (Some 8%positive) Demo.unlisted_here
    = Throw ERR_NOT_LISTED s'
    ∧ self s' = self Demo.unlisted_here
    ∧ heap (mem s') = heap (mem Demo.unlisted_here)
    ∧ released (mem s') = released (mem Demo.unlisted_here)
    ∧ cerr (mem s') = cerr (mem Demo.unlisted_here) +:+ ERR_NOT_LISTED +:+ endl.
Proof.
  apply (deleteSubtree_unlisted_target id Demo.unlisted_here
           8%positive 1%positive 1%positive
           (mkNode (Some 1%positive) [] "Z")
           (mkNode None [Some 2%positive; Some 3%positive; Some 4%positive] "A")
           10);
    first [by vm_compute | by_computation].
Defined.

(** C6, as the claim states it, fails here: "Q" has the parent "P", "P"
    does not list "Q", and the call on the tree rooted at "A" throws the
    cross-tree error, with any fuel that lets the walk finish, and never
    the not-listed error. *)
Lemma deleteSubtree_unlisted_elsewhere :
  heap (mem Demo.unlisted_elsewhere) !! 7%positive
  = Some (mkNode (Some 6%positive) [] "Q")
  ∧ heap (mem Demo.unlisted_elsewhere) !! 6%positive
    = Some (mkNode None [] "P")
  ∧ (Some 7%positive ∉ childrenPtrs (mkNode (T := string) None [] "P"))
  ∧ (∀ fuel, 1 ≤ fuel →
       deleteSubtree id fuel (Some 7%positive) Demo.unlisted_elsewhere
       = Throw ERR_CROSS_TREE Demo.unlisted_elsewhere)
  ∧ (∀ fuel s',
       deleteSubtree id fuel (Some 7%positive) Demo.unlisted_elsewhere
       ≠ Throw ERR_NOT_LISTED s').
Proof.
  assert (∀ fuel, 1 ≤ fuel →
            deleteSubtree id fuel (Some 7%positive) Demo.unlisted_elsewhere
            = Throw ERR_CROSS_TREE Demo.unlisted_elsewhere) as Hthrow.
  { intros fuel Hfuel.
    apply (deleteSubtree_stable id 1 fuel); [by vm_compute|done|done]. }
  split; [by vm_compute|]. split; [by vm_compute|].
  split; [by_computation|]. split; [exact Hthrow|].
  intros [|fuel] s'; [by vm_compute|].
  rewrite Hthrow by lia. intros Heq. by injection Heq.
Qed.

Lemma compress_idempotent_witness :
  ∃ k, ∀ fuel, k ≤ fuel →
    ∃ s1, compress fuel Demo.without_B = Ok s1 ∧ compress fuel s1 = Ok s1.
Proof.
  exact (compress_idempotent id first_free first_free_fresh Demo.without_B
           without_B_reachable).
Defined.

(** C9 fails on the code.  With the debug switch on, [Print] on the tree
    that is a single root "X" writes "Depth: 0" to the output stream it
    was given and only the rest of the trace line, " Data: X", to
    [std::cerr]. *)
Theorem Print_debug_splits_the_trace :
  Print id 1 (Demo.debugging Demo.single_X) (heap (mem Demo.single_X)) "" ""
  = Ok ("Depth: 0", " Data: X" +:+ endl).
Proof. vm_compute. reflexivity. Qed.

Lemma compress_never_throws_witness :
  (∀ fuel e s', compress fuel Demo.without_B ≠ Throw e s')
  ∧ ∃ k, ∀ fuel, k ≤ fuel → ∃ s', compress fuel Demo.without_B = Ok s'.
Proof.
  exact (compress_never_throws id first_free first_free_fresh Demo.without_B
           without_B_reachable).
Defined.

(** * Output, release order and invariants *)

Section MoreFacts.

Context {T : Type}.
Variable show : T → string.

Implicit Types (t : rtree T) (f g cs : list (option (rtree T))).
Implicit Types (h : gmap addr (TreeNode T)).

(** ** Strings *)

Lemma append_assoc (a b c : string) : (a +:+ b) +:+ c = a +:+ b +:+ c.
Proof.
  induction a as [|x a IH]; [reflexivity|].
  change (String x ((a +:+ b) +:+ c) = String x (a +:+ b +:+ c)).
  by rewrite IH.
Qed.

Lemma append_nil_r (a : string) : a +:+ "" = a.
Proof.
  induction a as [|x a IH]; [reflexivity|].
  change (String x (a +:+ "") = String x a). by rewrite IH.
Qed.

Lemma trace_app prefix (l k : list (option T)) :
  trace show prefix (l ++ k) = trace show prefix l +:+ trace show prefix k.
Proof.
  induction l as [|x l IH]; simpl; [done|]. by rewrite IH, !append_assoc.
Qed.

Lemma cat_app {A} (fn : A → string) (l k : list A) :
  cat fn (l ++ k) = cat fn l +:+ cat fn k.
Proof.
  induction l as [|x l IH]; simpl; [done|]. by rewrite IH, append_assoc.
Qed.

(** ** The order of exploration and of release *)

Lemma bind_join_fmap {A B} (fn : A → list B) (l : list A) :
  l ≫= fn = mjoin (fn <$> l).
Proof. induction l as [|x l IH]; simpl; [done | by f_equal]. Qed.

Lemma exploredF_app f g : exploredF (f ++ g) = exploredF f ++ exploredF g.
Proof. apply bind_app. Qed.

Lemma exploredF_reverse cs :
  exploredF (reverse cs)
  = mjoin (reverse (from_option explored [None] <$> cs)).
Proof. unfold exploredF. by rewrite bind_join_fmap, fmap_reverse. Qed.

Lemma node_line_repr h p t :
  repr h p t → node_line show h (Some (raddr t)) = Ok (entry_line show (Some (rval t))).
Proof.
  intros Hr. simpl. unfold load. by rewrite (repr_root _ _ _ Hr).
Qed.

Lemma explore_order dbg h :
  ∀ fuel f del err,
    slotsF f ≤ fuel → reprF h f →
    explore show fuel dbg h (slot_ptr <$> f) del err
    = Ok (reverse (Some <$> (nodes_of (exploredF f)).*1) ++ del,
          if dbg
          then err +:+ trace show "Exploring node: " (values_of (exploredF f))
          else err).
Proof.
  induction fuel as [|fuel IH]; intros [|[[a v cs]|] f] del err Hfuel Hr;
    try (simpl; destruct dbg; by rewrite ?append_nil_r);
    try (unfold slotsF in Hfuel; simpl in Hfuel; lia).
  - destruct (Hr (RNode a v cs)) as [p Hp]; [left|].
    pose proof (reprF_kids _ _ _ Hp) as Hkids. simpl in Hkids.
    apply repr_unfold in Hp as [Hroot _].
    simpl. unfold load. rewrite Hroot. simpl.
    rewrite push_all_reverse, <- fmap_reverse, <- fmap_app.
    assert (slotsF (reverse cs ++ f) ≤ fuel) as Hfuel'.
    { rewrite slotsF_app, slotsF_reverse.
      unfold slotsF in *. simpl in Hfuel. lia. }
    assert (reprF h (reverse cs ++ f)) as Hr'.
    { apply reprF_app; [by apply reprF_reverse | by eapply reprF_tail]. }
    change (exploredF (Some (RNode a v cs) :: f))
      with (Some (a, v) :: mjoin (reverse (from_option explored [None] <$> cs))
              ++ exploredF f).
    rewrite <- exploredF_reverse, <- exploredF_app.
    destruct dbg; simpl; rewrite (IH _ _ _ Hfuel' Hr'); simpl;
      rewrite reverse_cons, <- app_assoc; simpl; [|done].
    by rewrite !append_assoc.
  - assert (slotsF f ≤ fuel) as Hfuel'.
    { unfold slotsF in *. simpl in Hfuel. lia. }
    pose proof (reprF_tail _ _ _ Hr) as Hr'.
    change (exploredF (None :: f)) with (None :: exploredF f).
    simpl. destruct dbg; simpl; rewrite (IH _ _ _ Hfuel' Hr'); simpl; [|done].
    by rewrite !append_assoc.
Qed.

Lemma release_trace dbg :
  ∀ (L : list (addr * T)) (w w' : world T),
    NoDup L.*1 →
    (∀ a v, (a, v) ∈ L → ∃ nd, heap w !! a = Some nd ∧ data nd = v) →
    release show dbg (Some <$> L.*1) w = Ok w' →
    cerr w' = if dbg
              then cerr w +:+ trace show "Deleting node: " (Some <$> L.*2)
              else cerr w.
Proof.
  induction L as [|[b v] L IH]; intros w w' Hnd Hall Hrun.
  { simpl in Hrun. injection Hrun as <-. destruct dbg; by rewrite ?append_nil_r. }
  simpl in Hnd. apply NoDup_cons in Hnd as [Hb Hnd].
  destruct (Hall b v) as (nb & Hnb & Hdata); [left|].
  simpl in Hrun. unfold load in Hrun.
  assert (∀ w1 : world T, heap w1 = heap w →
    ∀ a v, (a, v) ∈ L →
      ∃ nd, delete b (heap w1) !! a = Some nd ∧ data nd = v) as Hrest.
  { intros w1 Hw1 a v' Hin. rewrite Hw1, lookup_delete_ne; [apply Hall; by right|].
    intros ->. apply Hb. apply list_elem_of_fmap. by exists (a, v'). }
  destruct dbg; simpl in Hrun; rewrite Hnb in Hrun; simpl in Hrun.
  - rewrite Hnb in Hrun. simpl in Hrun.
    apply IH in Hrun; [|done|exact (Hrest w eq_refl)].
    rewrite Hrun. simpl. by rewrite Hdata, !append_assoc.
  - apply IH in Hrun; [done|done|exact (Hrest w eq_refl)].
Qed.

Lemma explored_cells :
  ∀ t p a v,
    Some (a, v) ∈ explored t → ∃ nd, (a, nd) ∈ cells p t ∧ data nd = v.
Proof.
  induction t as [r x cs IH] using rtree_ind'. intros p a v Hin.
  simpl in Hin. apply elem_of_cons in Hin as [Heq|Hin].
  - injection Heq as -> ->. eexists. split; [left|done].
  - apply list_elem_of_join in Hin as (l & Hin & Hl).
    apply elem_of_reverse, list_elem_of_fmap in Hl as ([c|] & -> & Hc);
      simpl in Hin.
    + destruct (IH c Hc (Some r) a v Hin) as (nd & Hnd & Hdata).
      exists nd. split; [|done]. simpl. right.
      apply list_elem_of_bind. by exists (Some c).
    + by apply list_elem_of_singleton in Hin.
Qed.

Lemma dfs_head t : ∃ rest, dfs t = (raddr t, rval t) :: rest.
Proof. destruct t as [a v cs]. by eexists. Qed.

(** The order of the explore loop and of the delete loop on a node of an
    owned tree, and what the two loops trace. *)
Lemma deleteSubtree_order (s : state T) t n fuel :
  owns s (Some t) → n ∈ addrs t → slots t ≤ fuel →
  ∃ sb s',
    sub t sb ∧ raddr sb = n
    ∧ deleteSubtree show fuel (Some n) s = Ok s'
    ∧ released (mem s') = released (mem s) ++ reverse (dfs sb).*1
    ∧ cerr (mem s')
      = if showDebugMessages (self s)
        then cerr (mem s)
             +:+ trace show "Exploring node: " (values_of (explored sb))
             +:+ trace show "Deleting node: " (Some <$> reverse (dfs sb).*2)
        else cerr (mem s).
Proof.
  intros Hown Hn Hfuel.
  destruct (deleteSubtree_owned show s t n fuel Hown Hn Hfuel)
    as (sb & L & w1 & err & w' & Hsb & Hsbn & HL & Hdet & Hsame & Hcerr1
        & Hexp & Hrel & Hdel & _ & Hlog & _).
  destruct Hown as (Hroot & Hr & Hnd).
  destruct (sub_repr _ _ _ _ Hr Hsb) as [q Hq].
  assert (repr (heap w1) q sb) as Hq1 by (by eapply repr_frame).
  pose proof (explore_order (showDebugMessages (self s)) (heap w1) fuel
                [Some sb] [] (cerr w1)) as Hord.
  simpl in Hord. rewrite Hsbn in Hord. rewrite Hord in Hexp.
  2:{ pose proof (sub_slots _ _ Hsb). unfold slotsF. simpl. lia. }
  2:{ intros c Hc. apply list_elem_of_singleton in Hc. injection Hc as ->.
      by exists q. }
  clear Hord. injection Hexp as HLeq Herr.
  unfold exploredF in HLeq, Herr. simpl in HLeq, Herr.
  rewrite !app_nil_r in HLeq. rewrite app_nil_r in Herr.
  fold (dfs sb) in HLeq.
  rewrite <- fmap_reverse in HLeq. apply (inj (fmap Some)) in HLeq.
  rewrite <- fmap_reverse in HLeq. subst L.
  exists sb, {| self := if decide (n = raddr t) then set_root None (self s)
                        else self s;
                mem := w' |}.
  split_and!; try done; simpl.
  - by rewrite Hlog, fmap_reverse.
  - apply release_trace in Hrel; simpl.
    + rewrite Hrel. simpl. rewrite <- Herr, Hcerr1, fmap_reverse.
      destruct (showDebugMessages (self s)); [|done].
      by rewrite append_assoc.
    + rewrite HL. by eapply sub_NoDup.
    + intros a v Hin. rewrite elem_of_reverse in Hin.
      unfold dfs, nodes_of in Hin.
      apply list_elem_of_omap in Hin as (o & Ho & Heq). simpl in Heq. subst o.
      destruct (explored_cells sb q a v Ho) as (nd & Hcell & Hdata).
      exists nd. split; [by apply Hq1 | done].
Qed.

(** ** The loop of [Print] *)

Lemma kid_frames_snoc d tm cs (x : option (rtree T)) :
  kid_frames d tm (cs ++ [x])
  = ((λ oc, (oc, (d + 1)%Z, tm ++ [true], tm ++ [true])) <$> cs)
      ++ [(x, (d + 1)%Z, tm ++ [true], tm ++ [false])].
Proof.
  induction cs as [|oc cs IH]; [done|]. simpl. rewrite IH. do 3 f_equal.
  rewrite bool_decide_eq_false_2; [done|]. by destruct cs.
Qed.

Lemma push_plain d tm :
  ∀ cs (F : list (frame (T := T))),
    foldl (push_child d tm) (false, stacks_of F) (slot_ptr <$> reverse cs)
    = (false,
       stacks_of (((λ oc, (oc, (d + 1)%Z, tm ++ [true], tm ++ [true])) <$> cs)
                    ++ F)).
Proof.
  induction cs as [|oc cs IH]; intros F; [done|].
  rewrite reverse_cons, fmap_app, foldl_app, IH. reflexivity.
Qed.

Lemma push_children_frames d tm cs (F : list (frame (T := T))) :
  push_children (slot_ptr <$> cs) d tm (stacks_of F)
  = stacks_of (kid_frames d tm cs ++ F).
Proof.
  unfold push_children. rewrite <- fmap_reverse.
  destruct cs as [|oc cs _] using rev_ind; [done|].
  rewrite reverse_app, kid_frames_snoc, <- app_assoc. simpl.
  pose proof (push_plain d tm cs
                ((oc, (d + 1)%Z, tm ++ [true], tm ++ [false]) :: F)) as Hrest.
  etrans; [|exact (f_equal snd Hrest)]. reflexivity.
Qed.

Lemma printed_unfold d cur tm a v cs :
  printed d cur tm (RNode a v cs)
  = (d, cur, Some v) :: (kid_frames d tm cs ≫= printed_frame).
Proof.
  simpl. f_equal. induction cs as [|[c|] cs IH]; [done|..]; simpl;
    by rewrite IH.
Qed.

Lemma print_loop_frames dbg h :
  ∀ fuel (F : list (frame (T := T))) os err,
    slotsF ((λ fr : frame, fr.1.1.1) <$> F) ≤ fuel →
    reprF h ((λ fr : frame, fr.1.1.1) <$> F) →
    print_loop show fuel dbg h (stacks_of F) os err
    = Ok (if dbg
          then (os +:+ cat depth_note (F ≫= printed_frame),
                err +:+ cat (data_note show) (F ≫= printed_frame))
          else (os +:+ cat (diagram_rows show) (F ≫= printed_frame), err)).
Proof.
  induction fuel as [|fuel IH]; intros [|[[[[[a v cs]|] d] cur] tm] F] os err
    Hfuel Hr;
    try (simpl; destruct dbg; by rewrite ?append_nil_r);
    try (unfold slotsF in Hfuel; simpl in Hfuel; lia).
  - destruct (Hr (RNode a v cs)) as [p Hp]; [left|].
    pose proof (reprF_kids _ _ _ Hp) as Hkids. simpl in Hkids.
    apply repr_unfold in Hp as [Hroot _].
    assert ((λ fr : frame (T := T), fr.1.1.1) <$> kid_frames d tm cs = cs)
      as Hslots by (clear; induction cs as [|oc cs IH]; simpl; by f_equal).
    assert (slotsF ((λ fr : frame, fr.1.1.1) <$> (kid_frames d tm cs ++ F))
            ≤ fuel) as Hfuel'.
    { rewrite fmap_app, slotsF_app, Hslots.
      change (slotsF ((λ fr : frame, fr.1.1.1)
                        <$> (Some (RNode a v cs), d, cur, tm) :: F))
        with (S (slotsF cs + slotsF ((λ fr : frame, fr.1.1.1) <$> F)))
        in Hfuel.
      lia. }
    assert (reprF h ((λ fr : frame, fr.1.1.1) <$> (kid_frames d tm cs ++ F)))
      as Hr'.
    { rewrite fmap_app, Hslots. apply reprF_app; [done | by eapply reprF_tail]. }
    rewrite bind_cons.
    change (printed_frame (Some (RNode a v cs), d, cur, tm))
      with (printed d cur tm (RNode a v cs)).
    rewrite printed_unfold. rewrite <- app_comm_cons, <- bind_app.
    simpl. unfold load. rewrite Hroot. simpl.
    change (push_children (slot_ptr <$> cs) d tm _)
      with (push_children (slot_ptr <$> cs) d tm (stacks_of F)).
    rewrite push_children_frames, (IH _ _ _ Hfuel' Hr').
    unfold depth_note, data_note, diagram_rows, entry_line.
    destruct dbg; simpl; by rewrite !append_assoc.
  - assert (slotsF ((λ fr : frame, fr.1.1.1) <$> F) ≤ fuel) as Hfuel'.
    { change (slotsF ((λ fr : frame, fr.1.1.1) <$> (None, d, cur, tm) :: F))
        with (S (slotsF ((λ fr : frame, fr.1.1.1) <$> F))) in Hfuel.
      lia. }
    pose proof (reprF_tail _ _ _ Hr) as Hr'.
    rewrite bind_cons.
    change (printed_frame (None, d, cur, tm)) with [(d, cur, @None T)].
    simpl.
    change (print_loop show fuel dbg h _ ?o ?e)
      with (print_loop show fuel dbg h (stacks_of F) o e).
    rewrite (IH _ _ _ Hfuel' Hr').
    unfold depth_note, data_note, diagram_rows, entry_line.
    destruct dbg; simpl; by rewrite !append_assoc.
Qed.

Lemma printed_values : ∀ t d cur tm, (printed d cur tm t).*2 = preorder t.
Proof.
  induction t as [a v cs IH] using rtree_ind'. intros d cur tm.
  rewrite printed_unfold. simpl. f_equal.
  induction cs as [|[c|] cs IHcs]; [done|..]; simpl.
  - rewrite fmap_app, IH by left. f_equal.
    apply IHcs. intros c' Hc'. apply IH. by right.
  - f_equal. apply IHcs. intros c' Hc'. apply IH. by right.
Qed.

Lemma cat_data_note (es : list (Z * list bool * option T)) :
  cat (data_note show) es = trace show " Data: " es.*2.
Proof.
  induction es as [|e es IH]; [done|]. simpl. unfold data_note at 1.
  by rewrite IH, append_assoc.
Qed.

Lemma Print_plain
    (this : GenericTree) (h : gmap addr (TreeNode T)) (p : option addr)
    (t : rtree T) (fuel : nat) (os err : string) :
  rootNodePtr this = Some (raddr t) → showDebugMessages this = false →
  repr h p t → slots t ≤ fuel →
  Print show fuel this h os err = Ok (os +:+ diagram show t, err).
Proof.
  intros Hroot Hdbg Hr Hfuel. unfold Print. rewrite Hroot, Hdbg.
  pose proof (print_loop_frames false h fuel [(Some t, 0%Z, [], [])] os err)
    as Hloop.
  simpl in Hloop. rewrite app_nil_r in Hloop. apply Hloop.
  - unfold slotsF. simpl. lia.
  - intros c Hc. apply list_elem_of_singleton in Hc. injection Hc as ->.
    by exists p.
Qed.

(** X1. With the debug switch off, [Print] on a tree whose nodes are all in
    the heap returns normally, writes nothing to [std::cerr], and appends
    to the output stream exactly the diagram of the tree: for each node in
    pre-order, children from the leftmost to the rightmost, two margin
    rows and the value, or "[null]" for a tombstone; the margin of a child
    is its parent's trailing margin and a stem, and only a rightmost child
    leaves a blank below itself. *)
Theorem Print_is_the_diagram
    (this : GenericTree) (h : gmap addr (TreeNode T)) (p : option addr)
    (t : rtree T) (fuel : nat) (os err : string) :
  rootNodePtr this = Some (raddr t) → showDebugMessages this = false →
  repr h p t → slots t ≤ fuel →
  Print show fuel this h os err = Ok (os +:+ diagram show t, err).
Proof. apply Print_plain. Qed.

Lemma Print_debug
    (this : GenericTree) (h : gmap addr (TreeNode T)) (p : option addr)
    (t : rtree T) (fuel : nat) (os err : string) :
  rootNodePtr this = Some (raddr t) → showDebugMessages this = true →
  repr h p t → slots t ≤ fuel →
  Print show fuel this h os err
  = Ok (os +:+ cat depth_note (printed 0 [] [] t),
        err +:+ trace show " Data: " (preorder t)).
Proof.
  intros Hroot Hdbg Hr Hfuel. unfold Print. rewrite Hroot, Hdbg.
  pose proof (print_loop_frames true h fuel [(Some t, 0%Z, [], [])] os err)
    as Hloop.
  simpl in Hloop. rewrite app_nil_r in Hloop.
  rewrite cat_data_note, printed_values in Hloop. apply Hloop.
  - unfold slotsF. simpl. lia.
  - intros c Hc. apply list_elem_of_singleton in Hc. injection Hc as ->.
    by exists p.
Qed.

(** X2. With the debug switch on, [Print] on such a tree returns normally;
    it writes to [std::cerr] one " Data: " line per node, in pre-order
    with the children from the leftmost to the rightmost and "[null]" for
    a tombstone, and to the output stream one "Depth: " note per visit. *)
Theorem Print_debug_listing
    (this : GenericTree) (h : gmap addr (TreeNode T)) (p : option addr)
    (t : rtree T) (fuel : nat) (os err : string) :
  rootNodePtr this = Some (raddr t) → showDebugMessages this = true →
  repr h p t → slots t ≤ fuel →
  Print show fuel this h os err
  = Ok (os +:+ cat depth_note (printed 0 [] [] t),
        err +:+ trace show " Data: " (preorder t)).
Proof. apply Print_debug. Qed.

(** ** A root that is the only node *)

Lemma nulls_ptrs (l : list (option addr)) :
  Forall (λ c, c = None) l →
  slot_ptr <$> ((λ _ : option addr, @None (rtree T)) <$> l) = l.
Proof.
  induction 1 as [|c l -> _ IH]; [done|]. rewrite !fmap_cons. by f_equal.
Qed.

Lemma nulls_slots (l : list (option addr)) :
  slotsF ((λ _ : option addr, @None (rtree T)) <$> l) = length l.
Proof.
  induction l as [|c l IH]; [done|]. rewrite fmap_cons.
  change (slotsF (None :: ?f)) with (S (slotsF f)). by rewrite IH.
Qed.

Lemma nulls_diagram (l : list (option addr)) :
  cat (diagram_rows show)
    (kid_frames 0 [] ((λ _ : option addr, @None (rtree T)) <$> l)
       ≫= printed_frame)
  = cat (λ _ : option addr, "|" +:+ endl +:+ "|_ [null]" +:+ endl) l.
Proof.
  induction l as [|c l IH]; [done|].
  rewrite fmap_cons. simpl kid_frames. rewrite bind_cons.
  change (printed_frame (None, (0 + 1)%Z, [] ++ [true], ?tm))
    with [((0 + 1)%Z, [true], @None T)].
  rewrite cat_app, IH. reflexivity.
Qed.

(** C7. With the debug switch off, [Print] on a tree without a root
    appends exactly the line "[empty tree]" to the output stream, writes
    nothing to [std::cerr] and returns normally.  On a tree whose only
    node is the root, that is a root whose children vector holds nothing
    but null entries, it returns normally and the diagram has exactly one
    line that stands for a value: its first line, the root's value with
    nothing before it.  Each null entry is drawn below it as a stem row
    and a "|_ [null]" row.  When the children vector is empty the diagram
    is that one line. *)
Theorem Print_empty_and_single_root :
  (∀ fuel this (h : gmap addr (TreeNode T)) os err,
     rootNodePtr this = None → showDebugMessages this = false →
     Print show fuel this h os err = Ok (os +:+ "[empty tree]" +:+ endl, err))
  ∧ (∀ fuel this (h : gmap addr (TreeNode T)) r nd os err,
       rootNodePtr this = Some r → showDebugMessages this = false →
       h !! r = Some nd →
       Forall (λ c, c = None) (childrenPtrs nd) →
       length (childrenPtrs nd) < fuel →
       Print show fuel this h os err
       = Ok (os +:+ show (data nd) +:+ endl
                +:+ cat (λ _, "|" +:+ endl +:+ "|_ [null]" +:+ endl)
                      (childrenPtrs nd),
             err))
  ∧ (∀ fuel this (h : gmap addr (TreeNode T)) r nd os err,
       rootNodePtr this = Some r → showDebugMessages this = false →
       h !! r = Some nd → childrenPtrs nd = [] →
       Print show (S fuel) this h os err
       = Ok (os +:+ show (data nd) +:+ endl, err)).
Proof.
  split_and!.
  - intros fuel this h os err Hroot _. unfold Print. by rewrite Hroot.
  - intros fuel this h r nd os err Hroot Hdbg Hnd Hall Hfuel.
    set (cs := (λ _ : option addr, @None (rtree T)) <$> childrenPtrs nd).
    assert (repr h (parentPtr nd) (RNode r (data nd) cs)) as Hr.
    { intros a n Hin. simpl in Hin.
      apply elem_of_cons in Hin as [Heq|Hin].
      - injection Heq as -> ->. unfold cs.
        rewrite (nulls_ptrs _ Hall), Hnd. by destruct nd.
      - apply list_elem_of_bind in Hin as (oc & Hin & Hoc).
        apply list_elem_of_fmap in Hoc as (x & -> & _).
        by apply elem_of_nil in Hin. }
    assert (slots (RNode r (data nd) cs) = S (length (childrenPtrs nd)))
      as Hslots.
    { change (slots (RNode r (data nd) cs)) with (S (slotsF cs)).
      unfold cs. by rewrite nulls_slots. }
    rewrite (Print_plain this h (parentPtr nd) (RNode r (data nd) cs) fuel
               os err Hroot Hdbg Hr) by lia.
    do 3 f_equal. unfold diagram, cs.
    rewrite printed_unfold.
    change (cat (diagram_rows show) (?e :: ?l))
      with (diagram_rows show e +:+ cat (diagram_rows show) l).
    rewrite nulls_diagram.
    change (diagram_rows show (0%Z, [], Some (data nd)))
      with (show (data nd) +:+ endl).
    apply append_assoc.
  - intros fuel this h r nd os err Hroot Hdbg Hnd Hkids.
    unfold Print. rewrite Hroot, Hdbg. simpl. unfold load. rewrite Hnd. simpl.
    rewrite Hkids. by destruct fuel.
Qed.

(** ** The order of release *)

Lemma explored_nodes_addrs : ∀ t, (dfs t).*1 ≡ₚ addrs t.
Proof.
  induction t as [a v cs IH] using rtree_ind'.
  unfold dfs, nodes_of. simpl. constructor.
  change (cs ≫= from_option addrs []) with (addrsF cs).
  rewrite <- addrsF_reverse. rewrite <- fmap_reverse.
  assert (∀ c, Some c ∈ reverse cs → (dfs c).*1 ≡ₚ addrs c) as IH'.
  { intros c Hc. apply IH. by apply elem_of_reverse. }
  clear IH. induction (reverse cs) as [|[c|] l IHl]; [done|..].
  - change (mjoin (from_option explored [None] <$> Some c :: l))
      with (explored c ++ mjoin (from_option explored [None] <$> l)).
    rewrite omap_app, fmap_app, addrsF_cons_Some.
    rewrite IHl by (intros c' Hc'; apply IH'; by right).
    f_equiv. apply IH'. left.
  - rewrite addrsF_cons_None.
    change (mjoin (from_option explored [None] <$> None :: l))
      with ([None] ++ mjoin (from_option explored [None] <$> l)).
    rewrite omap_app. simpl. apply IHl. intros c' Hc'. apply IH'. by right.
Qed.

Lemma dfs_sub t u : sub t u → ∃ l1 l2, dfs t = l1 ++ dfs u ++ l2.
Proof.
  induction 1 as [|u' u _ (l1 & l2 & IH) Hk].
  { exists [], []. by rewrite app_nil_r. }
  destruct u' as [a v cs]. simpl in Hk.
  assert (∃ k1 k2, dfs (RNode a v cs) = k1 ++ dfs u ++ k2) as (k1 & k2 & Hu).
  { unfold dfs, nodes_of. simpl.
    assert (explored u ∈ reverse (from_option explored [None] <$> cs)) as Hin.
    { apply elem_of_reverse, list_elem_of_fmap. by exists (Some u). }
    apply list_elem_of_split in Hin as (m1 & m2 & ->).
    rewrite join_app. simpl. rewrite !omap_app.
    exists ((a, v) :: omap id (mjoin m1)), (omap id (mjoin m2)). done. }
  rewrite IH, Hu. exists (l1 ++ k1), (k2 ++ l2). by rewrite <- !app_assoc.
Qed.

(** X3. For a node [n] of an owned tree, [deleteSubtree] returns normally
    and the delete loop releases the nodes below [n] so that [n] itself
    comes last and every node comes after all the nodes that can be
    reached from it: no parent is released before its descendants. *)
Theorem deleteSubtree_release_order
    (s : state T) (t : rtree T) (n : addr) (fuel : nat) :
  owns s (Some t) → n ∈ addrs t → slots t ≤ fuel →
  ∃ L s',
    deleteSubtree show fuel (Some n) s = Ok s'
    ∧ released (mem s') = released (mem s) ++ L
    ∧ last L = Some n
    ∧ ∀ a b, a ∈ L → reach (heap (mem s)) a b → a ≠ b →
        ∃ l1 l2 l3, L = l1 ++ b :: l2 ++ a :: l3.
Proof.
  intros Hown Hn Hfuel.
  destruct (deleteSubtree_order s t n fuel Hown Hn Hfuel)
    as (sb & s' & Hsb & Hsbn & Hdel & Hlog & _).
  destruct Hown as (Hroot & Hr & Hnd).
  destruct (sub_repr _ _ _ _ Hr Hsb) as [q Hq].
  exists (reverse (dfs sb).*1), s'. split_and!; try done.
  - destruct (dfs_head sb) as [rest ->]. simpl.
    rewrite reverse_cons, last_snoc. by rewrite Hsbn.
  - intros a b Ha Hab Hne.
    rewrite elem_of_reverse, explored_nodes_addrs in Ha.
    apply addrs_sub in Ha as (u & Hu & <-).
    destruct (sub_repr _ _ _ _ Hq Hu) as [qu Hqu].
    apply (reach_addrs _ _ _ _ Hqu) in Hab.
    rewrite <- explored_nodes_addrs in Hab.
    destruct (dfs_sub _ _ Hu) as (l1 & l2 & Hsplit).
    destruct (dfs_head u) as [rest Hrest]. rewrite Hrest in Hab, Hsplit.
    rewrite fmap_cons in Hab.
    apply elem_of_cons in Hab as [Heq|Hb]; [simpl in Heq; congruence|].
    apply list_elem_of_split in Hb as (r1 & r2 & Hr12).
    rewrite Hsplit, !fmap_app, fmap_cons, Hr12.
    exists (reverse l2.*1 ++ reverse r2), (reverse r1), (reverse l1.*1).
    rewrite !reverse_app, !reverse_cons, !reverse_app, !reverse_cons.
    rewrite <- !app_assoc. reflexivity.
Qed.

(** X4. With the debug switch on, [deleteSubtree] on a node [n] of an owned
    tree writes its whole trace to [std::cerr]: first an "Exploring node: "
    line for every stack entry under [n] in the order of the explore loop
    (a node, then its slots from the rightmost to the leftmost, "[null]"
    for a tombstone), then a "Deleting node: " line for every node in the
    reverse of that order. *)
Theorem deleteSubtree_debug_trace
    (s : state T) (t : rtree T) (n : addr) (fuel : nat) :
  owns s (Some t) → n ∈ addrs t → slots t ≤ fuel →
  showDebugMessages (self s) = true →
  ∃ sb s',
    sub t sb ∧ raddr sb = n
    ∧ deleteSubtree show fuel (Some n) s = Ok s'
    ∧ cerr (mem s')
      = cerr (mem s)
        +:+ trace show "Exploring node: " (values_of (explored sb))
        +:+ trace show "Deleting node: " (Some <$> reverse (dfs sb).*2).
Proof.
  intros Hown Hn Hfuel Hdbg.
  destruct (deleteSubtree_order s t n fuel Hown Hn Hfuel)
    as (sb & s' & Hsb & Hsbn & Hdel & _ & Hcerr).
  rewrite Hdbg in Hcerr. by exists sb, s'.
Qed.

(** ** What a call never does *)

Lemma deleteSubtree_throw_what fuel target (s : state T) e s' :
  deleteSubtree show fuel target s = Throw e s' →
  e = ERR_CROSS_TREE ∨ e = ERR_NOT_LISTED.
Proof.
  destruct target as [n|]; [|done]. unfold deleteSubtree.
  pose proof (walkBack_no_throw (heap (mem s)) fuel n) as Hwalk.
  destruct (walkBack fuel (heap (mem s)) n) as [walk|e0 s0| |]; simpl;
    try done; [|by destruct (Hwalk e0 s0)].
  destruct (decide (Some walk ≠ rootNodePtr (self s)));
    [intros [= <- _]; by left|].
  destruct (detach_from_parent n s) as [w1|e1 s1| |] eqn:Hdet; simpl; try done.
  - pose proof (explore_no_throw show (showDebugMessages (self s)) (heap w1)
                  fuel [Some n] [] (cerr w1)) as Hexp.
    destruct (explore show fuel _ _ _ _ _) as [[dl err]|e2 s2| |]; simpl;
      try done; [|by destruct (Hexp e2 s2)].
    pose proof (release_no_throw show (showDebugMessages (self s)) dl
                  {| heap := heap w1; cerr := err; released := released w1 |})
      as Hrel.
    destruct (release show _ dl _) as [w2|e3 s3| |]; simpl; try done.
    by destruct (Hrel e3 s3).
  - intros [= <- _]. unfold detach_from_parent, load in Hdet.
    destruct (heap (mem s) !! n) as [tn|]; simpl in Hdet; [|done].
    destruct (parentPtr tn) as [p|]; [|done].
    destruct (heap (mem s) !! p) as [pn|]; simpl in Hdet; [|done].
    destruct (detach n (childrenPtrs pn)) as [cs [|]]; [done|].
    injection Hdet as <- _. by right.
Qed.

Lemma deleteSubtree_root_reset fuel (s s1 : state T) :
  deleteSubtree show fuel (rootNodePtr (self s)) s = Ok s1 →
  rootNodePtr (self s1) = None.
Proof.
  destruct (rootNodePtr (self s)) as [r|] eqn:Hroot;
    [|by intros [= <-]].
  unfold deleteSubtree.
  destruct (walkBack fuel (heap (mem s)) r) as [walk| | |]; simpl; try done.
  destruct (decide (Some walk ≠ rootNodePtr (self s))); [done|].
  destruct (detach_from_parent r s) as [w1| | |]; simpl; try done.
  destruct (explore show fuel _ _ _ _ _) as [[dl err]| | |]; simpl; try done.
  destruct (release show _ dl _) as [w2| | |]; simpl; try done.
  intros [= <-]. simpl. by rewrite Hroot, bool_decide_eq_true_2.
Qed.

(** X5. The self-check of [clear] never fires: in any state, with any
    heap, [clear] does not throw its own error.  When [deleteSubtree]
    returns, it has reset the root pointer; the only exceptions that come
    out of [clear] are the two that [deleteSubtree] throws. *)
Theorem clear_self_check_is_dead (fuel : nat) (s : state T) :
  (∀ s', clear show fuel s ≠ Throw ERR_CLEAR s')
  ∧ (∀ e s', clear show fuel s = Throw e s' →
       e = ERR_CROSS_TREE ∨ e = ERR_NOT_LISTED).
Proof.
  assert (∀ e s', clear show fuel s = Throw e s' →
            e = ERR_CROSS_TREE ∨ e = ERR_NOT_LISTED) as Hwhat.
  { intros e s'. unfold clear.
    destruct (deleteSubtree show fuel _ s) as [s1|e1 s1| |] eqn:Hdel; simpl;
      try done.
    - by rewrite (deleteSubtree_root_reset _ _ _ Hdel).
    - intros [= <- _]. by eapply deleteSubtree_throw_what. }
  split; [|done]. intros s' Hthrow.
  by destruct (Hwhat _ _ Hthrow).
Qed.

(** X6. For a node of an owned tree, [deleteSubtree] neither throws nor
    touches memory that is not allocated, whatever the fuel: the ownership
    check passes and the parent does list the node. *)
Theorem deleteSubtree_accepts_own_nodes
    (s : state T) (t : rtree T) (n : addr) (fuel : nat) :
  owns s (Some t) → n ∈ addrs t →
  (∀ e s', deleteSubtree show fuel (Some n) s ≠ Throw e s')
  ∧ deleteSubtree show fuel (Some n) s ≠ Fault.
Proof.
  intros Hown Hn.
  destruct (deleteSubtree_owned show s t n (fuel `max` slots t) Hown Hn)
    as (sb & L & w1 & err & w' & _ & _ & _ & _ & _ & _ & _ & _ & Hdel & _);
    [lia|].
  split; [intros e s'|]; intros Hrun;
    apply (deleteSubtree_stable show _ (fuel `max` slots t)) in Hrun;
    try done; try lia; congruence.
Qed.

(** ** The invariants of the container *)

Variable alloc : gmap addr (TreeNode T) → addr.
Hypothesis alloc_fresh : ∀ h, h !! alloc h = None.

(** X7. In every state reached through the interface nothing leaks and
    nothing dangles: the allocated nodes are exactly the nodes reachable
    from the root along child pointers, and the free store is empty when
    there is no root. *)
Theorem reachable_heap_is_the_tree (s : state T) :
  api_reachable show alloc s →
  (rootNodePtr (self s) = None → heap (mem s) = ∅)
  ∧ ∀ a, is_Some (heap (mem s) !! a)
         ↔ ∃ r, rootNodePtr (self s) = Some r ∧ reach (heap (mem s)) r a.
Proof.
  intros Hreach.
  destruct (api_reachable_exact show alloc alloc_fresh s Hreach)
    as [[t|] [Hown Hdom]]; simpl in *.
  - destruct Hown as (Hroot & Hr & Hnd). split; [by rewrite Hroot|].
    intros a. rewrite Hdom, Hroot. split.
    + intros Ha. exists (raddr t). split; [done|]. by eapply reach_addrs.
    + intros (r & [= <-] & Ha). by eapply reach_addrs.
  - split.
    + intros _. apply map_empty. intros a. apply eq_None_not_Some.
      intros Ha. apply Hdom in Ha. by apply elem_of_nil in Ha.
    + intros a. rewrite Hdom, Hown. split; [by intros ?%elem_of_nil|].
      by intros (r & ? & _).
Qed.

(** X8. In every state reached through the interface the links are
    consistent: the root has no parent; every child pointer leads to an
    allocated node whose parent pointer leads back; every node that has a
    parent is listed by that parent exactly once; and the walk along the
    parent pointers from any allocated node ends at the root. *)
Theorem reachable_links_are_consistent (s : state T) :
  api_reachable show alloc s →
  (∀ r, rootNodePtr (self s) = Some r →
     ∃ nd, heap (mem s) !! r = Some nd ∧ parentPtr nd = None)
  ∧ (∀ a nd c, heap (mem s) !! a = Some nd → Some c ∈ childrenPtrs nd →
       ∃ nc, heap (mem s) !! c = Some nc ∧ parentPtr nc = Some a)
  ∧ (∀ c nc p, heap (mem s) !! c = Some nc → parentPtr nc = Some p →
       ∃ np l1 l2,
         heap (mem s) !! p = Some np
         ∧ childrenPtrs np = l1 ++ Some c :: l2
         ∧ (Some c ∉ l1) ∧ (Some c ∉ l2))
  ∧ (∀ a, is_Some (heap (mem s) !! a) →
       ∃ r k, rootNodePtr (self s) = Some r
              ∧ ∀ fuel, k ≤ fuel → walkBack fuel (heap (mem s)) a = Ok r).
Proof.
  intros Hreach.
  destruct (api_reachable_exact show alloc alloc_fresh s Hreach)
    as [[t|] [Hown Hdom]]; simpl in *.
  2:{ assert (∀ a, heap (mem s) !! a = None) as Hempty.
      { intros a. apply eq_None_not_Some. intros Ha.
        apply Hdom in Ha. by apply elem_of_nil in Ha. }
      split_and!.
      - intros r. by rewrite Hown.
      - intros a nd c Ha. by rewrite Hempty in Ha.
      - intros c nc p Hc. by rewrite Hempty in Hc.
      - intros a [nd Ha]. by rewrite Hempty in Ha. }
  destruct Hown as (Hroot & Hr & Hnd). split_and!.
  - intros r. rewrite Hroot. intros [= <-].
    eexists. split; [by apply repr_root | done].
  - intros a nd c Ha Hc. eapply kid_parent; [done| |done|done].
    apply Hdom. by eauto.
  - intros c nc p Hc Hp.
    assert (c ∈ addrs t) as Hin by (apply Hdom; eauto).
    apply addrs_sub in Hin as (sc & Hsc & <-).
    destruct (sub_inv _ _ Hsc) as [->|(u & Hu & Hk)].
    { rewrite (repr_root _ _ _ Hr) in Hc. injection Hc as <-. done. }
    destruct (sub_repr _ _ _ _ Hr Hu) as [q Hq].
    rewrite (repr_root _ _ _ (repr_kid _ _ _ _ Hq Hk)) in Hc.
    injection Hc as <-. simpl in Hp. injection Hp as <-.
    pose proof (sub_NoDup _ _ Hnd Hu) as Hndu.
    assert (NoDup (omap id (slot_ptr <$> rkids u))) as Hptrs.
    { apply kid_ptrs_NoDup. destruct u. by apply NoDup_kids in Hndu as [_ ?]. }
    apply list_elem_of_split in Hk as (k1 & k2 & Hk).
    rewrite Hk, fmap_app, fmap_cons, omap_app in Hptrs. simpl in Hptrs.
    apply NoDup_app in Hptrs as (_ & Hdisj & Hptrs).
    apply NoDup_cons in Hptrs as [Hk2 _].
    exists {| parentPtr := q; childrenPtrs := slot_ptr <$> rkids u;
              data := rval u |}, (slot_ptr <$> k1), (slot_ptr <$> k2).
    split_and!.
    + by apply repr_root.
    + simpl. by rewrite Hk, fmap_app.
    + intros Hin. apply (Hdisj (raddr sc)); [|left].
      apply list_elem_of_omap. by exists (Some (raddr sc)).
    + intros Hin. apply Hk2.
      apply list_elem_of_omap. by exists (Some (raddr sc)).
  - intros a Ha. apply Hdom in Ha. exists (raddr t), (slots t).
    split; [done|]. intros fuel Hfuel. by apply walkBack_owned.
Qed.

(** X9. In every state reached through the interface, [clear] (and so the
    destructor) returns normally and leaves the free store empty: every
    node that was allocated has been released, once. *)
Theorem clear_frees_everything (s : state T) :
  api_reachable show alloc s →
  ∃ k, ∀ fuel, k ≤ fuel →
    ∃ L s',
      clear show fuel s = Ok s'
      ∧ heap (mem s') = ∅
      ∧ getRootPtr (self s') = None
      ∧ released (mem s') = released (mem s) ++ L
      ∧ NoDup L
      ∧ ∀ a, a ∈ L ↔ is_Some (heap (mem s) !! a).
Proof.
  intros Hreach.
  destruct (api_reachable_exact show alloc alloc_fresh s Hreach)
    as [[t|] [Hown Hdom]]; simpl in *.
  - exists (slots t). intros fuel Hfuel.
    destruct (deleteSubtree_owned show s t (raddr t) fuel Hown
                (raddr_in_addrs t) Hfuel)
      as (sb & L & w1 & err & w' & Hsb & Hsbn & HL & _ & _ & _ & _ & _
          & Hdel & Hheap & Hlog & _).
    destruct Hown as (Hroot & Hr & Hnd).
    assert (sb = t) as -> by (by apply sub_same_root).
    rewrite decide_True in Hdel by done.
    exists L, {| self := set_root None (self s); mem := w' |}.
    split_and!; try done.
    + unfold clear. by rewrite Hroot, Hdel.
    + simpl. apply map_empty. intros a. rewrite Hheap.
      destruct (decide (a ∈ addrs t)) as [Hin|Hnin]; [done|].
      apply eq_None_not_Some. by rewrite Hdom.
    + by rewrite HL.
    + intros a. by rewrite HL, Hdom.
  - exists 0. intros fuel _. exists [], s.
    split_and!; try done.
    + unfold clear. rewrite Hown. simpl. by rewrite Hown.
    + apply map_empty. intros a. apply eq_None_not_Some.
      intros Ha. apply Hdom in Ha. by apply elem_of_nil in Ha.
    + by rewrite app_nil_r.
    + constructor.
Qed.

(** ** How the calls compose *)

Lemma prune_slots n : ∀ t, slots (prune n t) ≤ slots t.
Proof.
  induction t as [a v cs IH] using rtree_ind'.
  rewrite prune_unfold. simpl. apply le_n_S.
  induction cs as [|oc cs IHcs]; [done|].
  rewrite fmap_cons. simpl sum_list_with. apply Nat.add_le_mono.
  - destruct oc as [c|]; simpl; [|done].
    pose proof (slots_pos c). pose proof (IH c ltac:(left)).
    destruct (decide (raddr c = n)); simpl; lia.
  - apply IHcs. intros c' Hc'. apply IH. by right.
Qed.

Lemma deleteSubtree_prune (s : state T) t n fuel :
  owns s (Some t) → n ∈ addrs t → n ≠ raddr t → slots t ≤ fuel →
  ∃ s', deleteSubtree show fuel (Some n) s = Ok s'
        ∧ self s' = self s
        ∧ owns s' (Some (prune n t))
        ∧ ∀ a, a ∈ addrs (prune n t)
               ↔ a ∈ addrs t ∧ ¬ reach (heap (mem s)) n a.
Proof.
  intros Hown Hn Hne Hfuel.
  destruct (deleteSubtree_owned show s t n fuel Hown Hn Hfuel)
    as (sb & L & w1 & err & w' & Hsb & Hsbn & HL & _ & _ & _ & _ & _ & Hdel
        & Hheap & _).
  destruct Hown as (Hroot & Hr & Hnd).
  rewrite decide_False in Hdel by done.
  pose proof (prune_addrs n sb t Hnd (not_eq_sym Hne) Hsb Hsbn) as Haddrs.
  destruct (sub_repr _ _ _ _ Hr Hsb) as [q Hq].
  eexists. split; [exact Hdel|]. split; [done|]. split; [split_and!|]; simpl.
  - by rewrite raddr_prune.
  - intros a nd Hin.
    assert (a ∈ addrs (prune n t)) as Ha.
    { rewrite <- (cells_addrs None). apply list_elem_of_fmap. by exists (a, nd). }
    rewrite Haddrs in Ha. apply list_elem_of_filter in Ha as [Hout Hat].
    apply prune_cells in Hin as (nd0 & Hnd0 & ->).
    rewrite Hheap, decide_False, decide_True by done.
    by rewrite (Hr _ _ Hnd0).
  - rewrite Haddrs. by apply NoDup_filter.
  - intros a. rewrite Haddrs, list_elem_of_filter, <- Hsbn.
    rewrite (reach_addrs _ _ _ _ Hq). tauto.
Qed.

(** X10. Deleting a node other than the root leaves a well-formed tree:
    the old tree with a null slot where the node was.  The next call finds
    a consistent structure, needs no more fuel than before, and [Print]
    draws that tree, the null slot as a [null] row. *)
Theorem deleteSubtree_leaves_a_tree
    (s : state T) (t : rtree T) (n : addr) (fuel : nat) (os err : string) :
  owns s (Some t) → n ∈ addrs t → n ≠ raddr t → slots t ≤ fuel →
  ∃ s',
    deleteSubtree show fuel (Some n) s = Ok s'
    ∧ owns s' (Some (prune n t))
    ∧ (∀ a, a ∈ addrs (prune n t)
            ↔ a ∈ addrs t ∧ ¬ reach (heap (mem s)) n a)
    ∧ slots (prune n t) ≤ fuel
    ∧ (showDebugMessages (self s) = false →
         Print show fuel (self s') (heap (mem s')) os err
         = Ok (os +:+ diagram show (prune n t), err)).
Proof.
  intros Hown Hn Hne Hfuel.
  destruct (deleteSubtree_prune s t n fuel Hown Hn Hne Hfuel)
    as (s' & Hdel & Hself & Hown' & Haddrs).
  pose proof (prune_slots n t) as Hslots.
  exists s'. split_and!; try done; [lia|].
  intros Hdbg. destruct Hown' as (Hroot' & Hr' & _).
  eapply Print_plain; [done|by rewrite Hself|done|lia].
Qed.

(** X11. A pointer into a deleted subtree dangles: after [deleteSubtree]
    of a node, handing that node or any node that was below it to
    [deleteSubtree] or to [addChild] again reads released memory. *)
Theorem deleted_nodes_dangle
    (s : state T) (t : rtree T) (n : addr) (fuel : nat) :
  owns s (Some t) → n ∈ addrs t → slots t ≤ fuel →
  ∃ s',
    deleteSubtree show fuel (Some n) s = Ok s'
    ∧ ∀ m, reach (heap (mem s)) n m →
        (∀ fuel', deleteSubtree show fuel' (Some m) s' = Fault)
        ∧ (∀ v, addChild alloc m v (mem s') = Fault).
Proof.
  intros Hown Hn Hfuel.
  destruct (deleteSubtree_owned show s t n fuel Hown Hn Hfuel)
    as (sb & L & w1 & err & w' & Hsb & Hsbn & HL & _ & _ & _ & _ & _ & Hdel
        & Hheap & _).
  destruct Hown as (Hroot & Hr & Hnd).
  destruct (sub_repr _ _ _ _ Hr Hsb) as [q Hq].
  eexists. split; [exact Hdel|]. intros m Hm. simpl.
  assert (heap w' !! m = None) as Hgone.
  { rewrite Hheap, decide_True; [done|].
    apply (reach_addrs _ _ _ _ Hq). by rewrite Hsbn. }
  split.
  - intros fuel'. unfold deleteSubtree. simpl.
    assert (walkBack fuel' (heap w') m = Fault) as ->; [|done].
    destruct fuel'; simpl; unfold load; by rewrite Hgone.
  - intros v. unfold addChild, load. by rewrite Hgone.
Qed.

(** X12. In every state reached through the interface [Print] returns:
    it terminates and reads allocated nodes only.  Without the debug
    switch it writes nothing to [std::cerr]. *)
Theorem Print_returns_when_reachable (s : state T) :
  api_reachable show alloc s →
  ∃ k, ∀ fuel os err, k ≤ fuel →
    ∃ out log,
      Print show fuel (self s) (heap (mem s)) os err = Ok (os +:+ out, err +:+ log)
      ∧ (showDebugMessages (self s) = false → log = "").
Proof.
  intros Hreach.
  destruct (api_reachable_exact show alloc alloc_fresh s Hreach)
    as [[t|] [Hown Hdom]]; simpl in *.
  - destruct Hown as (Hroot & Hr & Hnd).
    exists (slots t). intros fuel os err Hfuel.
    destruct (showDebugMessages (self s)) eqn:Hdbg.
    + eexists _, _. split; [by eapply Print_debug|done].
    + exists (diagram show t), "". split; [|done].
      rewrite append_nil_r. by eapply Print_plain.
  - exists 0. intros fuel os err _.
    exists ("[empty tree]" +:+ endl), "". split; [|done].
    unfold Print. by rewrite Hown, append_nil_r.
Qed.

(** X13. A tree that has been cleared can be rooted again: in every state
    reached through the interface, [clear] followed by [createRoot]
    returns, and the free store then holds the new root and nothing
    else. *)
Theorem clear_then_createRoot (s : state T) (v : T) :
  api_reachable show alloc s →
  ∃ k, ∀ fuel, k ≤ fuel →
    ∃ s1 p s2,
      clear show fuel s = Ok s1
      ∧ createRoot alloc v s1 = Ok (p, s2)
      ∧ getRootPtr (self s2) = Some p
      ∧ heap (mem s2) = {[ p := leaf None v ]}.
Proof.
  intros Hreach.
  destruct (api_reachable_exact show alloc alloc_fresh s Hreach) as [ot Hex].
  exists (from_option slots 0 ot). intros fuel Hfuel.
  assert (∃ s1, clear show fuel s = Ok s1) as [s1 Hclear].
  { destruct Hex as [Hown Hdom]. destruct ot as [t|]; simpl in *.
    - destruct (deleteSubtree_owned show s t (raddr t) fuel Hown
                  (raddr_in_addrs t) Hfuel)
        as (sb & L & w1 & err & w' & _ & _ & _ & _ & _ & _ & _ & _
            & Hdel & _).
      destruct Hown as (Hroot & _). rewrite decide_True in Hdel by done.
      eexists. unfold clear. by rewrite Hroot, Hdel.
    - exists s. unfold clear. rewrite Hown. simpl. by rewrite Hown. }
  assert (rootNodePtr (self s1) = None) as Hroot1.
  { unfold clear in Hclear.
    destruct (deleteSubtree show fuel _ s) as [s0| | |]; simpl in Hclear;
      try done.
    destruct (rootNodePtr (self s0)) eqn:Hroot0; [done|].
    by injection Hclear as <-. }
  destruct (exact_clear show s ot fuel s1 Hex Hclear) as [ot1 [Hown1 Hdom1]].
  destruct ot1 as [t1|]; [destruct Hown1 as [? _]; congruence|].
  simpl in *.
  assert (heap (mem s1) = ∅) as Hempty.
  { apply map_empty. intros a. apply eq_None_not_Some.
    intros Ha. apply Hdom1 in Ha. by apply elem_of_nil in Ha. }
  exists s1, (alloc (heap (mem s1))). eexists.
  split; [done|]. unfold createRoot. rewrite Hown1. split; [done|].
  simpl. split; [done|]. by rewrite Hempty, insert_empty.
Qed.

Lemma graft_slots n c x :
  ∀ t, NoDup (addrs t) →
       slots (graft n c x t)
       = slots t + (if decide (n ∈ addrs t) then 1 else 0).
Proof.
  induction t as [a v cs IH] using rtree_ind'. intros Hnd.
  apply NoDup_kids in Hnd as [Ha Hnd].
  assert (slotsF (fmap (M := option) (graft n c x) <$> cs)
          = slotsF cs + (if decide (n ∈ addrsF cs) then 1 else 0)) as Hkids.
  { clear Ha. induction cs as [|[k|] cs IHcs].
    - destruct (decide (n ∈ addrsF [])) as [Hin|_]; [|done].
      by apply elem_of_nil in Hin.
    - rewrite fmap_cons. simpl fmap at 1.
      rewrite addrsF_cons_Some in *.
      apply NoDup_app in Hnd as (Hndk & Hdisj & Hndcs).
      change (slotsF (Some ?u :: ?f)) with (slots u + slotsF f).
      rewrite (IH k) by (done || left).
      rewrite IHcs; [|intros k' Hk'; apply IH; by right|done].
      destruct (decide (n ∈ addrs k)) as [Hk|Hk];
        destruct (decide (n ∈ addrsF cs)) as [Hcs|Hcs].
      + by destruct (Hdisj n).
      + rewrite decide_True by (apply elem_of_app; by left). lia.
      + rewrite decide_True by (apply elem_of_app; by right). lia.
      + rewrite decide_False; [lia|].
        by intros [?|?]%elem_of_app.
    - rewrite fmap_cons. simpl fmap at 1. rewrite addrsF_cons_None in *.
      change (slotsF (None :: ?f)) with (1 + slotsF f).
      rewrite IHcs; [lia| |done]. intros k' Hk'. apply IH. by right. }
  rewrite graft_unfold. simpl.
  change (sum_list_with (from_option slots 1) ?l) with (slotsF l).
  change (?l ≫= from_option addrs []) with (addrsF l).
  destruct (decide (a = n)) as [->|Hne].
  - rewrite decide_True by left.
    rewrite slotsF_app, Hkids, decide_False by done.
    change (slotsF [Some (RNode c x [])]) with 1. lia.
  - rewrite Hkids. destruct (decide (n ∈ addrsF cs)) as [Hin|Hnin].
    + rewrite decide_True by (by right). lia.
    + rewrite decide_False; [lia|].
      intros [?|?]%elem_of_cons; congruence.
Qed.

Lemma addChild_graft (s : state T) t n v :
  owns s (Some t) → n ∈ addrs t →
  ∃ me,
    heap (mem s) !! n = Some me
    ∧ heap (mem s) !! alloc (heap (mem s)) = None
    ∧ (alloc (heap (mem s)) ∉ addrs t)
    ∧ addChild alloc n v (mem s)
      = Ok (alloc (heap (mem s)),
            set_heap (<[n := set_children
                              (childrenPtrs me ++ [Some (alloc (heap (mem s)))])
                              me]>
                        (<[alloc (heap (mem s)) := leaf (Some n) v]>
                           (heap (mem s)))) (mem s))
    ∧ owns {| self := self s;
              mem := set_heap
                       (<[n := set_children
                                 (childrenPtrs me
                                    ++ [Some (alloc (heap (mem s)))]) me]>
                          (<[alloc (heap (mem s)) := leaf (Some n) v]>
                             (heap (mem s)))) (mem s) |}
        (Some (graft n (alloc (heap (mem s))) v t)).
Proof.
  intros (Hroot & Hr & Hnd) Hn.
  set (h := heap (mem s)) in *. set (c := alloc h).
  pose proof (alloc_fresh h) as Hc. fold c in Hc.
  destruct (repr_allocated _ _ _ _ Hr Hn) as [me Hme].
  assert (c ∉ addrs t) as Hct.
  { intros Hin. destruct (repr_allocated _ _ _ _ Hr Hin) as [? Hin'].
    congruence. }
  assert (c ≠ n) as Hcn by (intros ->; congruence).
  exists me. split_and!; try done.
  - unfold addChild, load. fold h. by rewrite Hme.
  - split_and!; simpl.
    + by rewrite raddr_graft.
    + intros a nd Hin.
      apply graft_cells in Hin as [[-> ->]|(nd0 & Hnd0 & ->)].
      * rewrite lookup_insert_ne by done. apply lookup_insert_eq.
      * pose proof (Hr _ _ Hnd0) as Ha.
        destruct (decide (a = n)) as [->|Hne].
        -- rewrite lookup_insert_eq. congruence.
        -- rewrite !lookup_insert_ne; [done|congruence|done].
    + rewrite graft_addrs, decide_True by done. by apply NoDup_cons.
Qed.

(** X14. [addChild] on a node of an owned tree returns the address of a
    node that was not allocated before, and leaves a well-formed tree: the
    old one with a new leaf as the rightmost child of the receiver.  No
    other cell of the free store changes, nothing is released or logged,
    and a traversal of the new tree takes one step more. *)
Theorem addChild_leaves_a_tree
    (s : state T) (t : rtree T) (n : addr) (v : T) :
  owns s (Some t) → n ∈ addrs t →
  ∃ c w,
    addChild alloc n v (mem s) = Ok (c, w)
    ∧ heap (mem s) !! c = None
    ∧ owns {| self := self s; mem := w |} (Some (graft n c v t))
    ∧ heap w !! c = Some (leaf (Some n) v)
    ∧ (∃ me, heap (mem s) !! n = Some me
             ∧ heap w !! n
               = Some (set_children (childrenPtrs me ++ [Some c]) me))
    ∧ (∀ a, a ≠ n → a ≠ c → heap w !! a = heap (mem s) !! a)
    ∧ released w = released (mem s) ∧ cerr w = cerr (mem s)
    ∧ slots (graft n c v t) = S (slots t).
Proof.
  intros Hown Hn.
  destruct (addChild_graft s t n v Hown Hn)
    as (me & Hme & Hc & Hct & Hrun & Hown').
  assert (alloc (heap (mem s)) ≠ n) as Hcn by (intros E; congruence).
  eexists _, _. split; [exact Hrun|]. split_and!; try done; simpl.
  - rewrite lookup_insert_ne by done. apply lookup_insert_eq.
  - exists me. split; [done|]. apply lookup_insert_eq.
  - intros a Han Hac. by rewrite !lookup_insert_ne.
  - destruct Hown as (_ & _ & Hnd).
    rewrite graft_slots, decide_True by done. lia.
Qed.

(** X15. Adding a child and deleting it again is not the identity: the
    node is released, and its parent keeps a null entry at the end of its
    children.  [compress] then gives the very free store that [compress]
    gives from the state before the two calls. *)
Theorem addChild_deleteSubtree_compress
    (s : state T) (t : rtree T) (n : addr) (v : T) (fuel : nat) :
  owns s (Some t) → n ∈ addrs t → slots t < fuel →
  ∃ c w s1 s2 s3,
    addChild alloc n v (mem s) = Ok (c, w)
    ∧ deleteSubtree show fuel (Some c) {| self := self s; mem := w |} = Ok s1
    ∧ released (mem s1) = released (mem s) ++ [c]
    ∧ (∀ a, heap (mem s1) !! a
            = if decide (a = n)
              then (λ me, set_children (childrenPtrs me ++ [None]) me)
                     <$> heap (mem s) !! a
              else heap (mem s) !! a)
    ∧ compress fuel s1 = Ok s2
    ∧ compress fuel s = Ok s3
    ∧ heap (mem s2) = heap (mem s3).
Proof.
  intros Hown Hn Hfuel.
  destruct (addChild_graft s t n v Hown Hn)
    as (me & Hme & Hc & Hct & Hrun & Hown').
  set (h := heap (mem s)) in *. set (c := alloc h) in *.
  set (g := graft n c v t) in *.
  set (w := set_heap _ (mem s)) in *.
  assert (c ≠ n) as Hcn by (intros E; congruence).
  pose proof Hown as (Hroot & Hr & Hnd). fold h in Hr.
  assert (slots g = S (slots t)) as Hslots.
  { unfold g. rewrite graft_slots, decide_True by done. lia. }
  assert (∀ a, a ∈ addrs g ↔ a = c ∨ a ∈ addrs t) as Hg.
  { intros a. unfold g. rewrite graft_addrs, decide_True by done.
    apply elem_of_cons. }
  assert (c ∈ addrs g) as Hcg by (apply Hg; by left).
  assert (c ≠ raddr g) as Hcr.
  { unfold g. rewrite raddr_graft. intros E. apply Hct. rewrite E.
    apply raddr_in_addrs. }
  assert (∀ a nd, a ∈ addrs t → h !! a = Some nd → Some c ∉ childrenPtrs nd)
    as Hnokid.
  { intros a nd Ha Hnd' Hin.
    destruct (kid_parent _ _ _ _ _ _ Hr Ha Hnd' Hin) as (nn & Hnn & _).
    congruence. }
  destruct (deleteSubtree_owned show _ g c fuel Hown' Hcg)
    as (sb & L & w1 & err & w' & Hsb & Hsbn & HL & _ & _ & _ & _ & _ & Hdel
        & Hheap & Hrel & _); [lia|].
  destruct (deleteSubtree_prune _ g c fuel Hown' Hcg Hcr)
    as (s1 & Hdel' & Hself & Hown1 & _); [lia|].
  rewrite Hdel in Hdel'. injection Hdel' as <-.
  rewrite decide_False in Hdel, Hown1 by done. clear Hself.
  destruct Hown' as (_ & Hrg & Hndg). simpl in Hrg, Hrel, Hheap, Hdel.
  destruct (sub_repr _ _ _ _ Hrg Hsb) as [q Hq].
  assert (addrs sb = [c]) as Hsbc.
  { pose proof (repr_root _ _ _ Hq) as Hroot'. rewrite Hsbn in Hroot'.
    simpl in Hroot'.
    rewrite lookup_insert_ne, lookup_insert_eq in Hroot' by done.
    injection Hroot' as _ Hkids _. destruct sb as [b x [|k ks]]; [|done].
    simpl in *. by subst. }
  rewrite Hsbc in *.
  apply Permutation_singleton_r in HL as ->.
  assert (∀ a, heap w' !! a
               = if decide (a = n)
                 then (λ me, set_children (childrenPtrs me ++ [None]) me)
                        <$> h !! a
                 else h !! a) as Hheap1.
  { intros a. rewrite Hheap.
    destruct (decide (a ∈ [c])) as [->%list_elem_of_singleton|Hac].
    { by rewrite decide_False. }
    assert (a ≠ c) as Hne by (intros ->; apply Hac; left).
    destruct (decide (a = n)) as [->|Han].
    - rewrite decide_True by (apply Hg; by right).
      rewrite lookup_insert_eq, Hme. simpl. f_equal.
      pose proof (no_tombstone_needed c me (Hnokid n me Hn Hme)) as E.
      apply (f_equal childrenPtrs) in E.
      unfold tombstone, set_children in *. simpl in *.
      rewrite fmap_app, E. simpl. by rewrite decide_True.
    - rewrite !lookup_insert_ne by done.
      destruct (decide (a ∈ addrs g)) as [Hag|_]; [|done].
      apply Hg in Hag as [?|Hat]; [done|].
      destruct (repr_allocated _ _ _ _ Hr Hat) as [nd Hnd'].
      fold h in Hnd'. rewrite Hnd'. simpl.
      by rewrite (no_tombstone_needed c nd (Hnokid a nd Hat Hnd')). }
  pose proof (prune_addrs c sb g Hndg (not_eq_sym Hcr) Hsb Hsbn) as Hpa.
  rewrite Hsbc in Hpa.
  assert (∀ a, a ∈ addrs (prune c g) ↔ a ∈ addrs t) as Hp.
  { intros a. rewrite Hpa, list_elem_of_filter, Hg, list_elem_of_singleton.
    split; [by intros [? [?|?]]|]. intros Hat. split; [|by right].
    by intros ->. }
  destruct (compress_owned show {| self := self s; mem := w' |} (prune c g)
              fuel Hown1)
    as (w2 & Hcmp2 & Hheap2 & _).
  { pose proof (prune_slots c g). lia. }
  destruct (compress_owned show s t fuel Hown) as (w3 & Hcmp3 & Hheap3 & _);
    [lia|].
  simpl in Hheap2, Hcmp2.
  eexists c, w, _, _, _. split_and!; try done.
  simpl. apply map_eq. intros a. rewrite Hheap2, Hheap3.
  rewrite (decide_ext _ _ _ _ (Hp a)), Hheap1. fold h.
  destruct (decide (a ∈ addrs t)) as [Hat|Hnat].
  - destruct (decide (a = n)) as [->|Han]; [|done].
    rewrite Hme. simpl. f_equal. unfold squash, set_children. simpl.
    by rewrite filter_app, filter_cons_False, filter_nil, app_nil_r
      by (by intros [? ?]).
  - rewrite decide_False; [done|]. by intros ->.
Qed.

(** X16. Without the debug switch the calls that change the tree are
    silent when they return: [deleteSubtree] and [clear] write nothing to
    [std::cerr], and [compress] neither writes there nor releases a
    node. *)
Theorem quiet_without_debug
    (s : state T) (t : rtree T) (n : addr) (fuel : nat) :
  owns s (Some t) → n ∈ addrs t → slots t ≤ fuel →
  showDebugMessages (self s) = false →
  ∃ s1 s2 s3,
    deleteSubtree show fuel (Some n) s = Ok s1
    ∧ cerr (mem s1) = cerr (mem s)
    ∧ clear show fuel s = Ok s2
    ∧ cerr (mem s2) = cerr (mem s)
    ∧ compress fuel s = Ok s3
    ∧ cerr (mem s3) = cerr (mem s)
    ∧ released (mem s3) = released (mem s).
Proof.
  intros Hown Hn Hfuel Hdbg.
  destruct (deleteSubtree_owned show s t n fuel Hown Hn Hfuel)
    as (sb & L & w1 & err & w' & _ & _ & _ & _ & _ & _ & _ & _ & Hdel
        & _ & _ & Hquiet).
  destruct (deleteSubtree_owned show s t (raddr t) fuel Hown
              (raddr_in_addrs t) Hfuel)
    as (sb0 & L0 & w10 & err0 & w0 & _ & _ & _ & _ & _ & _ & _ & _ & Hdel0
        & _ & _ & Hquiet0).
  destruct (compress_owned show s t fuel Hown Hfuel)
    as (w3 & Hcmp & _ & Hcerr & Hrel).
  rewrite decide_True in Hdel0 by done.
  pose proof Hown as (Hroot & _).
  eexists _, _, _. split; [exact Hdel|]. split; [by apply Hquiet|].
  split; [unfold clear; by rewrite Hroot, Hdel0|].
  split; [by apply Hquiet0|]. by split.
Qed.

End MoreFacts.

(** * These facts on concrete trees *)

(** The root "X" with its one null entry is a state of the interface, and
    the root is the only node in the free store. *)
Lemma lone_X_reachable :
  api_reachable id first_free Demo.lone_X
  ∧ heap (mem Demo.lone_X) = {[ 1%positive := mkNode None [None] "X" ]}.
Proof.
  split; [|by_computation].
  assert (api_reachable id first_free Demo.single_X) as HX.
  { eapply api_call; [apply api_start|].
    exact (call_createRoot id first_free "X" Demo.start 1%positive
             Demo.single_X eq_refl). }
  assert (api_reachable id first_free (Demo.after_addChild 1 "Y" Demo.single_X))
    as HY.
  { eapply api_call; [exact HX|].
    exact (call_addChild id first_free 1%positive "Y" Demo.single_X 2%positive
             (mem (Demo.after_addChild 1 "Y" Demo.single_X)) eq_refl). }
  eapply api_call; [exact HY|].
  exact (call_deleteSubtree id first_free 10 (Some 2%positive)
           (Demo.after_addChild 1 "Y" Demo.single_X) Demo.lone_X eq_refl).
Qed.

Lemma Print_empty_and_single_root_witness :
  Print id 0 GenericTree_default (∅ : gmap addr (TreeNode string)) "" ""
  = Ok ("[empty tree]" +:+ endl, "")
  ∧ Print id 2 (self Demo.lone_X) (heap (mem Demo.lone_X)) "" ""
    = Ok ("X" +:+ endl +:+ "|" +:+ endl +:+ "|_ [null]" +:+ endl, "")
  ∧ Print id 1 (self Demo.single_X) (heap (mem Demo.single_X)) "" ""
    = Ok ("X" +:+ endl, "").
Proof.
  split_and!.
  - exact (proj1 (Print_empty_and_single_root id) 0 GenericTree_default ∅ "" ""
             eq_refl eq_refl).
  - apply (proj1 (proj2 (Print_empty_and_single_root id)) 2 (self Demo.lone_X)
             (heap (mem Demo.lone_X)) 1%positive (mkNode None [None] "X") "" "");
      by_computation.
  - exact (proj2 (proj2 (Print_empty_and_single_root id)) 0
             (self Demo.single_X) (heap (mem Demo.single_X)) 1%positive
             (mkNode None [] "X") "" "" eq_refl eq_refl eq_refl eq_refl).
Defined.

Lemma Print_is_the_diagram_witness :
  Print id 10 (self Demo.without_B) (heap (mem Demo.without_B)) "" ""
  = Ok ("" +:+ diagram id Demo.without_B_tree, "").
Proof.
  apply (Print_is_the_diagram id (self Demo.without_B)
           (heap (mem Demo.without_B)) None Demo.without_B_tree 10 "" "");
    by_computation.
Defined.

Lemma Print_debug_listing_witness :
  Print id 10 (Demo.debugging Demo.without_B) (heap (mem Demo.without_B)) "" ""
  = Ok ("" +:+ cat depth_note (printed 0 [] [] Demo.without_B_tree),
        "" +:+ trace id " Data: " (preorder Demo.without_B_tree)).
Proof.
  apply (Print_debug_listing id (Demo.debugging Demo.without_B)
           (heap (mem Demo.without_B)) None Demo.without_B_tree 10 "" "");
    by_computation.
Defined.

Lemma deleteSubtree_release_order_witness :
  ∃ L s',
    deleteSubtree id 10 (Some 2%positive) Demo.scenario = Ok s'
    ∧ released (mem s') = released (mem Demo.scenario) ++ L
    ∧ last L = Some 2%positive
    ∧ ∀ a b, a ∈ L → reach (heap (mem Demo.scenario)) a b → a ≠ b →
        ∃ l1 l2 l3, L = l1 ++ b :: l2 ++ a :: l3.
Proof.
  apply (deleteSubtree_release_order id Demo.scenario Demo.scenario_tree
           2%positive 10); by_computation.
Defined.

Lemma deleteSubtree_debug_trace_witness :
  ∃ sb s',
    sub Demo.scenario_tree sb ∧ raddr sb = 2%positive
    ∧ deleteSubtree id 10 (Some 2%positive) Demo.scenario_debugging = Ok s'
    ∧ cerr (mem s')
      = cerr (mem Demo.scenario_debugging)
        +:+ trace id "Exploring node: " (values_of (explored sb))
        +:+ trace id "Deleting node: " (Some <$> reverse (dfs sb).*2).
Proof.
  apply (deleteSubtree_debug_trace id Demo.scenario_debugging
           Demo.scenario_tree 2%positive 10); by_computation.
Defined.

Lemma clear_self_check_is_dead_witness :
  (∀ s', clear id 10 Demo.unlisted_here ≠ Throw ERR_CLEAR s')
  ∧ (∀ e s', clear id 10 Demo.unlisted_here = Throw e s' →
       e = ERR_CROSS_TREE ∨ e = ERR_NOT_LISTED).
Proof. exact (clear_self_check_is_dead id 10 Demo.unlisted_here). Defined.

Lemma deleteSubtree_accepts_own_nodes_witness :
  (∀ e s', deleteSubtree id 2 (Some 2%positive) Demo.scenario ≠ Throw e s')
  ∧ deleteSubtree id 2 (Some 2%positive) Demo.scenario ≠ Fault.
Proof.
  apply (deleteSubtree_accepts_own_nodes id Demo.scenario Demo.scenario_tree
           2%positive 2); by_computation.
Defined.

Lemma reachable_heap_is_the_tree_witness :
  (rootNodePtr (self Demo.without_B) = None → heap (mem Demo.without_B) = ∅)
  ∧ ∀ a, is_Some (heap (mem Demo.without_B) !! a)
         ↔ ∃ r, rootNodePtr (self Demo.without_B) = Some r
                ∧ reach (heap (mem Demo.without_B)) r a.
Proof.
  exact (reachable_heap_is_the_tree id first_free first_free_fresh
           Demo.without_B without_B_reachable).
Defined.

Lemma reachable_links_are_consistent_witness :
  (∀ r, rootNodePtr (self Demo.without_B) = Some r →
     ∃ nd, heap (mem Demo.without_B) !! r = Some nd ∧ parentPtr nd = None)
  ∧ (∀ a nd c, heap (mem Demo.without_B) !! a = Some nd →
       Some c ∈ childrenPtrs nd →
       ∃ nc, heap (mem Demo.without_B) !! c = Some nc
             ∧ parentPtr nc = Some a)
  ∧ (∀ c nc p, heap (mem Demo.without_B) !! c = Some nc →
       parentPtr nc = Some p →
       ∃ np l1 l2,
         heap (mem Demo.without_B) !! p = Some np
         ∧ childrenPtrs np = l1 ++ Some c :: l2
         ∧ (Some c ∉ l1) ∧ (Some c ∉ l2))
  ∧ (∀ a, is_Some (heap (mem Demo.without_B) !! a) →
       ∃ r k, rootNodePtr (self Demo.without_B) = Some r
              ∧ ∀ fuel, k ≤ fuel →
                  walkBack fuel (heap (mem Demo.without_B)) a = Ok r).
Proof.
  exact (reachable_links_are_consistent id first_free first_free_fresh
           Demo.without_B without_B_reachable).
Defined.

Lemma clear_frees_everything_witness :
  ∃ k, ∀ fuel, k ≤ fuel →
    ∃ L s',
      clear id fuel Demo.without_B = Ok s'
      ∧ heap (mem s') = ∅
      ∧ getRootPtr (self s') = None
      ∧ released (mem s') = released (mem Demo.without_B) ++ L
      ∧ NoDup L
      ∧ ∀ a, a ∈ L ↔ is_Some (heap (mem Demo.without_B) !! a).
Proof.
  exact (clear_frees_everything id first_free first_free_fresh
           Demo.without_B without_B_reachable).
Defined.

Lemma deleteSubtree_leaves_a_tree_witness :
  ∃ s',
    deleteSubtree id 10 (Some 2%positive) Demo.scenario = Ok s'
    ∧ owns s' (Some (prune 2%positive Demo.scenario_tree))
    ∧ (∀ a, a ∈ addrs (prune 2%positive Demo.scenario_tree)
            ↔ a ∈ addrs Demo.scenario_tree
              ∧ ¬ reach (heap (mem Demo.scenario)) 2%positive a)
    ∧ slots (prune 2%positive Demo.scenario_tree) ≤ 10
    ∧ (showDebugMessages (self Demo.scenario) = false →
         Print id 10 (self s') (heap (mem s')) "" ""
         = Ok ("" +:+ diagram id (prune 2%positive Demo.scenario_tree), "")).
Proof.
  apply (deleteSubtree_leaves_a_tree id Demo.scenario Demo.scenario_tree
           2%positive 10 "" ""); by_computation.
Defined.

Lemma deleted_nodes_dangle_witness :
  ∃ s',
    deleteSubtree id 10 (Some 2%positive) Demo.scenario = Ok s'
    ∧ ∀ m, reach (heap (mem Demo.scenario)) 2%positive m →
        (∀ fuel', deleteSubtree id fuel' (Some m) s' = Fault)
        ∧ (∀ v, addChild first_free m v (mem s') = Fault).
Proof.
  apply (deleted_nodes_dangle id first_free Demo.scenario Demo.scenario_tree
           2%positive 10); by_computation.
Defined.

Lemma Print_returns_when_reachable_witness :
  ∃ k, ∀ fuel os err, k ≤ fuel →
    ∃ out log,
      Print id fuel (self Demo.without_B) (heap (mem Demo.without_B)) os err
      = Ok (os +:+ out, err +:+ log)
      ∧ (showDebugMessages (self Demo.without_B) = false → log = "").
Proof.
  exact (Print_returns_when_reachable id first_free first_free_fresh
           Demo.without_B without_B_reachable).
Defined.

Lemma clear_then_createRoot_witness :
  ∃ k, ∀ fuel, k ≤ fuel →
    ∃ s1 p s2,
      clear id fuel Demo.without_B = Ok s1
      ∧ createRoot first_free "R" s1 = Ok (p, s2)
      ∧ getRootPtr (self s2) = Some p
      ∧ heap (mem s2) = {[ p := leaf None "R" ]}.
Proof.
  exact (clear_then_createRoot id first_free first_free_fresh
           Demo.without_B "R" without_B_reachable).
Defined.

Lemma addChild_leaves_a_tree_witness :
  ∃ c w,
    addChild first_free 3%positive "F" (mem Demo.scenario) = Ok (c, w)
    ∧ heap (mem Demo.scenario) !! c = None
    ∧ owns {| self := self Demo.scenario; mem := w |}
        (Some (graft 3%positive c "F" Demo.scenario_tree))
    ∧ heap w !! c = Some (leaf (Some 3%positive) "F")
    ∧ (∃ me, heap (mem Demo.scenario) !! 3%positive = Some me
             ∧ heap w !! 3%positive
               = Some (set_children (childrenPtrs me ++ [Some c]) me))
    ∧ (∀ a, a ≠ 3%positive → a ≠ c →
         heap w !! a = heap (mem Demo.scenario) !! a)
    ∧ released w = released (mem Demo.scenario)
    ∧ cerr w = cerr (mem Demo.scenario)
    ∧ slots (graft 3%positive c "F" Demo.scenario_tree)
      = S (slots Demo.scenario_tree).
Proof.
  apply (addChild_leaves_a_tree first_free first_free_fresh Demo.scenario
           Demo.scenario_tree 3%positive "F"); by_computation.
Defined.

Lemma addChild_deleteSubtree_compress_witness :
  ∃ c w s1 s2 s3,
    addChild first_free 3%positive "F" (mem Demo.scenario) = Ok (c, w)
    ∧ deleteSubtree id 10 (Some c) {| self := self Demo.scenario; mem := w |}
      = Ok s1
    ∧ released (mem s1) = released (mem Demo.scenario) ++ [c]
    ∧ (∀ a, heap (mem s1) !! a
            = if decide (a = 3%positive)
              then (λ me, set_children (childrenPtrs me ++ [None]) me)
                     <$> heap (mem Demo.scenario) !! a
              else heap (mem Demo.scenario) !! a)
    ∧ compress 10 s1 = Ok s2
    ∧ compress 10 Demo.scenario = Ok s3
    ∧ heap (mem s2) = heap (mem s3).
Proof.
  apply (addChild_deleteSubtree_compress id first_free first_free_fresh
           Demo.scenario Demo.scenario_tree 3%positive "F" 10); by_computation.
Defined.

Lemma quiet_without_debug_witness :
  ∃ s1 s2 s3,
    deleteSubtree id 10 (Some 2%positive) Demo.scenario = Ok s1
    ∧ cerr (mem s1) = cerr (mem Demo.scenario)
    ∧ clear id 10 Demo.scenario = Ok s2
    ∧ cerr (mem s2) = cerr (mem Demo.scenario)
    ∧ compress 10 Demo.scenario = Ok s3
    ∧ cerr (mem s3) = cerr (mem Demo.scenario)
    ∧ released (mem s3) = released (mem Demo.scenario).
Proof.
  apply (quiet_without_debug id Demo.scenario Demo.scenario_tree 2%positive 10);
    by_computation.
Defined.
